(** * A shallow embedding of the transaction validator

    The Go packages [models], [accountsdb] and [validator] are embedded
    module by module.  Conventions used throughout:

    - Go's [float64] amounts are modelled by integers ([Z]): on integers of
      magnitude below 2^53 the sums, differences and comparisons of the
      program are exact in [float64].  Fractions, rounding, infinities and
      NaN are outside the model.  [CalcScore] does its halving and rounding
      in [Q], so that the ceiling is the real one.
    - A Go [map[string]float64] is a [gmap string Z].
    - A Go [error] is an [option string] ([None] is [nil]).
    - A call that may panic returns an [outcome]. *)

From stdpp Require Import gmap strings list fin_maps.
From Stdlib Require Import ZArith QArith Qround Lia.

Close Scope Q_scope.
Close Scope Z_scope.
Set Default Proof Using "Type*".

(** ** Outcomes of calls that can panic or block *)

Inductive outcome (A : Type) : Type :=
  | Ret (a : A)            (* normal return *)
  | Panic (msg : string)   (* the goroutine panics *)
  | Blocked                (* a channel send that can never complete *)
  | OutOfFuel.             (* artefact of bounded loops; shown unreachable *)
Arguments Ret {A} a.
Arguments Panic {A} msg.
Arguments Blocked {A}.
Arguments OutOfFuel {A}.

#[global] Instance outcome_ret : MRet outcome := @Ret.
#[global] Instance outcome_bind : MBind outcome := fun A B k m =>
  match m with
  | Ret a => k a
  | Panic msg => Panic msg
  | Blocked => Blocked
  | OutOfFuel => OutOfFuel
  end.

(** Go's [error] interface, reduced to the message. *)
Definition error := option string.

(** ** Package models *)

Module models.

Record Fee := { Payer : string; Amount : Z }.

(** A value stored under a key of a decoded JSON object.  The program only
    ever asserts such a value to be a string. *)
Inductive field := FString (s : string) | FOther.

(** [Instruction.Change] has static type [any]; after [json.Unmarshal] it
    is a [float64], a [map[string]any], or something else. *)
Inductive any :=
  | Float64 (change : Z)
  | Object (change : gmap string field)
  | Unexpected.

Record Instruction := { Account : string; Change : any }.

Record Transaction := { fee : Fee; Instructions : list Instruction }.

Definition IsChangeFloat64 (instruction : Instruction) : bool :=
  match Change instruction with Float64 _ => true | _ => false end.

End models.

(** ** Package accountsdb *)

Module accountsdb.

Abbreviation Accounts := (gmap string Z).

Definition GetBalance (db : Accounts) (account : string) : Z * error :=
  match db !! account with
  | Some balance => (balance, None)
  | None => (0%Z, Some "no such account"%string)
  end.

(** [UpdateBy] returns the error together with the database it leaves. *)
Definition UpdateBy (db : Accounts) (account : string) (amount : Z)
  : error * Accounts :=
  match GetBalance db account with
  | (_, Some _) =>
      let validAmount := if (amount >? 0)%Z then amount else 0%Z in
      (None, <[account := validAmount]> db)
  | (balance, None) =>
      let newBalance := (balance + amount)%Z in
      if (newBalance <? 0)%Z
      then (Some "operation causes balance to go negative"%string, db)
      else (None, <[account := newBalance]> db)
  end.

(** [Earn] ignores the lookup error: a missing validator account reads 0. *)
Definition Earn (db : Accounts) (amount : Z) : Accounts :=
  let '(balance, _) := GetBalance db "validator" in
  <["validator"%string := (balance + amount)%Z]> db.

(** [InitFromSnapshot], from the point where the file has been opened and
    decoded: [decoded] is the error of [os.Open] / [Decode], or the map. *)
Definition InitFromSnapshot (decoded : string + Accounts) : string + Accounts :=
  match decoded with
  | inl err => inl err
  | inr accounts =>
      if forallb (fun kv => negb (kv.2 <? 0)%Z) (map_to_list accounts)
      then
        match accounts !! "validator"%string with
        | Some _ => inr accounts
        | None => inr (<["validator"%string := 0%Z]> accounts)
        end
      else inl "invalid balance data in accounts snapshot"%string
  end.

(** *** Databases behind pointers

    [*AccountsDb] values are addresses into a store; [Copy] allocates. *)

Abbreviation ptr := nat.
Abbreviation store := (gmap nat (gmap string Z)).

Definition Copy (σ : store) (db : ptr) : outcome (ptr * store) :=
  match σ !! db with
  | None => Panic "nil pointer dereference"
  | Some accounts =>
      let copy := fresh (dom σ) in
      Ret (copy, <[copy := accounts]> σ)
  end.

End accountsdb.

(** ** Go's container/heap

    The standard library package the validator's queue is built on, over
    the five methods of [heap.Interface].  Slice indices are [nat]; the one
    place where Go computes a negative index, [(0 - 1) / 2 = 0] in [up], agrees
    with truncated subtraction on [nat] (lemma [parent_go]).  The loops of
    [up] and [down] take fuel; [up_loop_fuel] and [down_loop_fuel] show that
    the fuel given by [up] and [down] is never used up.  The methods of the
    interface have their Go names; the package functions [heap.Push] and
    [heap.Pop] are [hPush] and [hPop]. *)

Module heap.

Class Interface (H X : Type) := {
  Len : H → nat;
  Less : H → nat → nat → bool;
  Swap : H → nat → nat → H;
  Push : H → X → H;
  Pop : H → outcome (X * H)
}.

Section heap.
Context {H X : Type} `{!Interface H X}.

Fixpoint up_loop (fuel : nat) (h : H) (j : nat) : H :=
  match fuel with
  | O => h
  | S fuel =>
      let i := (j - 1) / 2 in (* parent *)
      if (i =? j) || negb (Less h j i) then h
      else up_loop fuel (Swap h i j) i
  end.

Definition up (h : H) (j : nat) : H := up_loop (S j) h j.

(** [down] also reports whether the element moved; [Pop] drops that. *)
Fixpoint down_loop (fuel : nat) (h : H) (i n : nat) : H :=
  match fuel with
  | O => h
  | S fuel =>
      let j1 := 2 * i + 1 in
      if n <=? j1 then h
      else
        let j := if (j1 + 1 <? n) && Less h (j1 + 1) j1 then j1 + 1 else j1 in
        if negb (Less h j i) then h
        else down_loop fuel (Swap h i j) j n
  end.

Definition down (h : H) (i0 n : nat) : H := down_loop n h i0 n.

Definition hPush (h : H) (x : X) : H :=
  let h := Push h x in
  up h (Len h - 1).

(** With [Len h = 0], [n] is [-1] and [h.Swap(0, n)] indexes out of range. *)
Definition hPop (h : H) : outcome (X * H) :=
  if Len h =? 0 then Panic "index out of range [-1]"
  else
    let n := Len h - 1 in
    let h := Swap h 0 n in
    let h := down h 0 n in
    Pop h.

End heap.
End heap.

(** ** Package validator *)

Module validator.
Import models accountsdb.

(** [validator.Transaction] embeds [models.Transaction]. *)
Record Transaction := {
  base : models.Transaction;
  prio : Z;    (* The priority of the item in the queue. *)
  index : Z    (* The index of the item in the heap. *)
}.

Definition Fee (tx : Transaction) : models.Fee := fee (base tx).
Definition Instrs (tx : Transaction) : list Instruction := Instructions (base tx).

Definition set_index (tx : Transaction) (i : Z) : Transaction :=
  {| base := base tx; prio := prio tx; index := i |}.

#[global] Instance Transaction_inhabited : Inhabited Transaction :=
  populate {| base := {| fee := {| Payer := ""; Amount := 0 |}; Instructions := [] |};
              prio := 0; index := 0 |}.

Definition CalcScore (tx : Transaction) : Z :=
  let score := (inject_Z (Amount (Fee tx)) * 10)%Q in
  let score := (score + inject_Z (Z.of_nat (length (Instrs tx)) * -5))%Q in
  Qceiling (score / 2).

(** Rewrites every instruction of a transaction, keeping their number. *)
Definition map_instructions (f : Instruction → Instruction) (tx : Transaction)
  : Transaction :=
  {| base := {| fee := Fee tx; Instructions := f <$> Instrs tx |};
     prio := prio tx; index := index tx |}.

(** *** TransactionHeap

    A slice of transaction pointers.  Every pointer sits in one slot, so the
    pointed-to records are kept in the list itself.  The methods are only
    called by container/heap, with indices inside the slice. *)

Abbreviation TransactionHeap := (list Transaction).

Definition Len (heap : TransactionHeap) : nat := length heap.

Definition Less (heap : TransactionHeap) (i j : nat) : bool :=
  (prio (heap !!! i) >? prio (heap !!! j))%Z.

Definition Swap (heap : TransactionHeap) (i j : nat) : TransactionHeap :=
  let a := heap !!! i in
  let b := heap !!! j in
  <[j := set_index a (Z.of_nat j)]> (<[i := set_index b (Z.of_nat i)]> heap).

Definition Push (heap : TransactionHeap) (tx : Transaction) : TransactionHeap :=
  let n := length heap in
  heap ++ [set_index tx (Z.of_nat n)].

Definition Pop (heap : TransactionHeap) : outcome (Transaction * TransactionHeap) :=
  let n := length heap in
  match last heap with
  | None => Panic "index out of range [-1]"
  | Some item => Ret (set_index item (-1), take (n - 1) heap)
  end.

#[global] Instance TransactionHeap_Interface
  : heap.Interface TransactionHeap Transaction :=
  {| heap.Len := Len; heap.Less := Less; heap.Swap := Swap;
     heap.Push := Push; heap.Pop := Pop |}.

Definition PushTransaction (txHeap : TransactionHeap) (tx : Transaction)
  : TransactionHeap :=
  heap.hPush txHeap tx.

Definition NextTransaction (txHeap : TransactionHeap)
  : outcome (Transaction * TransactionHeap) :=
  heap.hPop txHeap.

(** What a queued transaction is, whatever slot it sits in. *)
Definition payload (tx : Transaction) : models.Transaction * Z := (base tx, prio tx).

(** The max-heap shape on priorities. *)
Definition heapOrdered (h : TransactionHeap) : Prop :=
  ∀ j, 0 < j < length h → (prio (h !!! j) ≤ prio (h !!! ((j - 1) / 2)%nat))%Z.

(** *** The validator *)

Record Validator := {
  db : Accounts;                 (* Where accounts and balances stored. *)
  txCh : list Transaction;       (* Unordered transactions: a FIFO of capacity 256. *)
  batchIdx : Z;                  (* uint64 *)
  txHeap : TransactionHeap       (* Ordered transactions. *)
}.

(** [NewFromSnapshot], without the socket and the HTTP client.  [heap.Init]
    on the empty heap does nothing. *)
Definition NewFromSnapshot (decoded : string + Accounts) : string + Validator :=
  match InitFromSnapshot decoded with
  | inl err => inl err
  | inr accounts =>
      inr {| db := accounts; txCh := []; batchIdx := 0; txHeap := [] |}
  end.

(** The body of the loop over [tx.Instructions] in [CommitBatch]. *)
Definition commit_instruction (db : Accounts) (instr : Instruction)
  : outcome Accounts :=
  match Change instr with
  | Float64 change =>
      let '(balance, _) := GetBalance db (Account instr) in
      let newBalance := (balance + change)%Z in
      Ret (<[Account instr := newBalance]> db)
  | Object change =>
      match change !! "account"%string with
      | None => Panic "no such account"
      | Some account =>
          let '(balance, _) := GetBalance db (Account instr) in
          match account with
          | FOther => Panic "interface conversion: interface {} is not string"
          | FString account =>
              match GetBalance db account with
              | (_, Some err) => Panic err
              | (targetBalance, None) =>
                  match change !! "sign"%string with
                  | None => Panic "sign not found"
                  | Some FOther =>
                      Panic "interface conversion: interface {} is not string"
                  | Some (FString sign) =>
                      if String.eqb sign "plus" then
                        let newBalance := (balance + targetBalance)%Z in
                        Ret (<[Account instr := newBalance]> db)
                      else if String.eqb sign "minus" then
                        let newBalance := (balance - targetBalance)%Z in
                        Ret (<[Account instr := newBalance]> db)
                      else Panic "unknown sign"
                  end
              end
          end
      end
  | Unexpected => Panic "unexpected JSON format"
  end.

Fixpoint commit_instructions (db : Accounts) (instrs : list Instruction)
  : outcome Accounts :=
  match instrs with
  | [] => Ret db
  | instr :: instrs =>
      db ← commit_instruction db instr;
      commit_instructions db instrs
  end.

(** The body of the loop over [batch] in [CommitBatch]. *)
Definition commit_transaction (db : Accounts) (tx : Transaction)
  : outcome Accounts :=
  let '(balance, _) := GetBalance db (Payer (Fee tx)) in
  let newBalance := (balance - Amount (Fee tx))%Z in
  let db := Earn db (Amount (Fee tx)) in
  let db := <[Payer (Fee tx) := newBalance]> db in
  commit_instructions db (Instrs tx).

Fixpoint commit_transactions (db : Accounts) (batch : list Transaction)
  : outcome Accounts :=
  match batch with
  | [] => Ret db
  | tx :: batch =>
      db ← commit_transaction db tx;
      commit_transactions db batch
  end.

Definition CommitBatch (vali : Validator) (batch : list Transaction)
  : outcome Validator :=
  db' ← commit_transactions (db vali) batch;
  Ret {| db := db'; txCh := txCh vali;
         batchIdx := ((batchIdx vali + 1) mod 2 ^ 64)%Z;
         txHeap := txHeap vali |}.

(** *** isCommutative *)

(** Go leaves the order in which [range] visits a map unspecified: a
    [RangeOrder] is any way of listing the entries of a map, each once.
    What is proved below holds for every one of them. *)
Class RangeOrder := {
  range : gmap string Z → list (string * Z);
  range_perm : ∀ m, range m ≡ₚ map_to_list m
}.

(** The body of the loop over [tx.Instructions] in [isCommutative];
    [vdb] is [vali.db]. *)
Definition change_of_instruction (vdb : Accounts)
    (changes : gmap string Z) (sum : Z) (instr : Instruction)
  : outcome (gmap string Z * Z) :=
  match Change instr with
  | Float64 change =>
      let sum := (sum + change)%Z in
      (* We're only interested in balance decrease. *)
      if (change >? 0)%Z then Ret (changes, sum)
      else
        match changes !! Account instr with
        | Some oldChange =>
            Ret (<[Account instr := (oldChange + change)%Z]> changes, sum)
        | None => Ret (<[Account instr := change]> changes, sum)
        end
  | Object change =>
      match change !! "account"%string with
      | None => Panic "no such account"
      | Some FOther => Panic "interface conversion: interface {} is not string"
      | Some (FString account) =>
          match GetBalance vdb account with
          | (_, Some err) => Panic err
          | (targetBalance, None) =>
              match change !! "sign"%string with
              | None => Panic "sign not found"
              | Some FOther =>
                  Panic "interface conversion: interface {} is not string"
              | Some (FString sign) =>
                  if String.eqb sign "plus" then
                    Ret (changes, (sum + targetBalance)%Z)
                  else if String.eqb sign "minus" then
                    match changes !! Account instr with
                    | Some oldChange =>
                        Ret (<[Account instr := (oldChange - targetBalance)%Z]> changes,
                             sum)
                    | None => Ret (<[Account instr := targetBalance]> changes, sum)
                    end
                  else Panic "unknown sign"
              end
          end
      end
  | Unexpected => Panic "unexpected JSON format"
  end.

Fixpoint changes_of_instructions (vdb : Accounts)
    (changes : gmap string Z) (sum : Z) (instrs : list Instruction)
  : outcome (gmap string Z * Z) :=
  match instrs with
  | [] => Ret (changes, sum)
  | instr :: instrs =>
      '(changes, sum) ← change_of_instruction vdb changes sum instr;
      changes_of_instructions vdb changes sum instrs
  end.

(** The first loop over [changes]: either an early [return] of
    [isCommutative], or the map that is left once the entries of unknown
    accounts have been deleted.  [entries] is the visiting order. *)
Fixpoint test_changes (db : Accounts) (entries : list (string * Z))
    (changes : gmap string Z) : (bool * error) + gmap string Z :=
  match entries with
  | [] => inr changes
  | (account, change) :: entries =>
      match GetBalance db account with
      | (_, Some _) =>
          if (change <? 0)%Z
          then inl (true, Some "operation causes balance to go negative"%string)
          else test_changes db entries (delete account changes)
      | (balance, None) =>
          let newBalance := (balance + change)%Z in
          if (newBalance <? 0)%Z then inl (false, None)
          else test_changes db entries changes
      end
  end.

(** The second loop over [changes]: commit to the copy. *)
Fixpoint apply_changes (db : Accounts) (entries : list (string * Z)) : Accounts :=
  match entries with
  | [] => db
  | (account, change) :: entries =>
      let '(balance, _) := GetBalance db account in
      let newBalance := (balance + change)%Z in
      apply_changes (<[account := newBalance]> db) entries
  end.

Section isCommutative.
Context {order : RangeOrder}.

(** [isCommutative vdb tx db]: [vdb] is [vali.db], [db] the copy.  Returns the
    two results and the copy as it is left. *)
Definition isCommutative (vdb : Accounts) (tx : Transaction) (db : Accounts)
  : outcome (bool * error * Accounts) :=
  let changes : gmap string Z := {[ Payer (Fee tx) := (- Amount (Fee tx))%Z ]} in
  '(changes, sum) ← changes_of_instructions vdb changes 0%Z (Instrs tx);
  if negb (sum =? 0)%Z then
    Ret (true, Some "instruction sum is non-zero"%string, db)
  else
    match test_changes db (range changes) changes with
    | inl (commutative, err) => Ret (commutative, err, db)
    | inr changes => Ret (true, None, apply_changes db (range changes))
    end.

(** The same call on databases behind pointers: [vali_db] is the address
    held in [vali.db], [db] the address passed as argument.  Every read of
    [vali.db] in the body precedes every write to [db]. *)
Definition isCommutative_at (σ : store) (vali_db : ptr) (tx : Transaction)
    (db : ptr) : outcome (bool * error * store) :=
  match σ !! vali_db, σ !! db with
  | Some authoritative, Some working =>
      '(commutative, err, working') ← isCommutative authoritative tx working;
      Ret (commutative, err, <[db := working']> σ)
  | _, _ => Panic "nil pointer dereference"
  end.

(** *** ProcessTransactions *)

(** [vali.txCh <- tx] from the only goroutine that receives from [txCh]. *)
Definition send (txCh : list Transaction) (tx : Transaction)
  : outcome (list Transaction) :=
  if length txCh <? 256 then Ret (txCh ++ [tx]) else Blocked.

(** The variables of the inner loop: [batch], [db] (the copy), and the two
    fields of [vali] the loop changes. *)
Record filling := {
  batch : list Transaction;
  working : Accounts;
  chan : list Transaction;
  pending : TransactionHeap
}.

(** One turn of [for len(batch) < 100 && len(vali.txHeap) > 0]. *)
Definition fill_step (vdb : Accounts) (st : filling) : outcome filling :=
  '(tx, txHeap') ← NextTransaction (pending st);
  let st := {| batch := batch st; working := working st; chan := chan st;
               pending := txHeap' |} in
  (* Check if the payer can pay tx fee. *)
  match GetBalance (working st) (Payer (Fee tx)) with
  | (_, Some _) => Ret st
  | (balance, None) =>
      if (balance - Amount (Fee tx) <? 0)%Z then Ret st
      else
        '(commutative, err, db') ← isCommutative vdb tx (working st);
        match err with
        | Some _ =>
            let db' := if commutative : bool then Earn db' (Amount (Fee tx)) else db' in
            Ret {| batch := batch st; working := db'; chan := chan st;
                   pending := pending st |}
        | None =>
            if negb commutative then
              txCh' ← send (chan st) tx;
              Ret {| batch := batch st; working := db'; chan := txCh';
                     pending := pending st |}
            else
              Ret {| batch := batch st ++ [tx]; working := db'; chan := chan st;
                     pending := pending st |}
        end
  end.

Fixpoint fill_batch (fuel : nat) (vdb : Accounts) (st : filling) : outcome filling :=
  if (length (batch st) <? 100) && (0 <? length (pending st)) then
    match fuel with
    | O => OutOfFuel
    | S fuel =>
        st ← fill_step vdb st;
        fill_batch fuel vdb st
    end
  else Ret st.

(** The inner loop from its start: the empty batch, the copy [db] of
    [vali.db], and as much fuel as there are queued transactions. *)
Definition build_batch (vali : Validator) : outcome filling :=
  (* Copy the current state of db. *)
  let copy := db vali in
  fill_batch (length (txHeap vali)) (db vali)
    {| batch := []; working := copy; chan := txCh vali; pending := txHeap vali |}.

(** [vali] once the inner loop is over: what it sent and extracted. *)
Definition after_build (vali : Validator) (st : filling) : Validator :=
  {| db := db vali; txCh := chan st; batchIdx := batchIdx vali;
     txHeap := pending st |}.

(** The [default] branch of the [select]: one pass of batch building, then
    commit and send.  Returns the validator and the batch handed to
    [CommitBatch] and [SendBatch], if any. *)
Definition ProcessTransactions_default (vali : Validator)
  : outcome (Validator * option (list Transaction)) :=
  if length (txHeap vali) =? 0 then Ret (vali, None)
  else
    st ← build_batch vali;
    if length (batch st) =? 0 then Ret (after_build vali st, None)
    else
      vali ← CommitBatch (after_build vali st) (batch st);
      Ret (vali, Some (batch st)).

(** One turn of the outer [for]: the [select] receives from [txCh] when a
    transaction is ready there and takes [default] otherwise. *)
Definition ProcessTransactions_turn (vali : Validator)
  : outcome (Validator * option (list Transaction)) :=
  match txCh vali with
  | tx :: rest =>
      Ret ({| db := db vali; txCh := rest; batchIdx := batchIdx vali;
              txHeap := PushTransaction (txHeap vali) tx |}, None)
  | [] => ProcessTransactions_default vali
  end.

End isCommutative.

(** [range] in the order of [map_to_list]: one order Go may take. *)
Definition listed_order : RangeOrder :=
  {| range := map_to_list; range_perm := λ m, reflexivity _ |}.

End validator.

(** * Vocabulary of the statements *)

Import models accountsdb validator.

(** The heap shape everywhere except between [j] and its parent. *)
Definition up_inv (h : TransactionHeap) (j : nat) : Prop :=
  (∀ k, 0 < k < length h → k ≠ j →
        (prio (h !!! k) ≤ prio (h !!! ((k - 1) / 2)%nat))%Z) ∧
  (∀ k, 0 < k < length h → (k - 1) / 2 = j → 0 < j →
        (prio (h !!! k) ≤ prio (h !!! ((j - 1) / 2)%nat))%Z).

(** The child [down] compares with [i]. *)
Definition larger_child (h : TransactionHeap) (i n : nat) : nat :=
  if (2 * i + 1 + 1 <? n) && Less h (2 * i + 1 + 1) (2 * i + 1)
  then 2 * i + 1 + 1 else 2 * i + 1.

(** The heap shape on the first [n] slots, except between [i] and its
    children. *)
Definition down_inv (h : TransactionHeap) (i n : nat) : Prop :=
  (∀ k, 0 < k < n → (k - 1) / 2 ≠ i →
        (prio (h !!! k) ≤ prio (h !!! ((k - 1) / 2)%nat))%Z) ∧
  (∀ k, 0 < k < n → (k - 1) / 2 = i → 0 < i →
        (prio (h !!! k) ≤ prio (h !!! ((i - 1) / 2)%nat))%Z).

(** The delta map of [isCommutative] before any instruction is read. *)
Definition fee_change (tx : Transaction) : gmap string Z :=
  {[ Payer (Fee tx) := (- Amount (Fee tx))%Z ]}.

(** Some entry of [changes] names an account that [db] does not have and
    lowers it. *)
Definition missing_debit (db changes : gmap string Z) : Prop :=
  ∃ account change,
    changes !! account = Some change ∧ db !! account = None ∧ (change < 0)%Z.

(** Some entry of [changes] takes an account of [db] below zero. *)
Definition overdraws (db changes : gmap string Z) : Prop :=
  ∃ account change balance,
    changes !! account = Some change ∧ db !! account = Some balance ∧
    (balance + change < 0)%Z.

(** The ways [isCommutative vdb tx db] can end. *)
Inductive isCommutative_ends {order : RangeOrder} (vdb : Accounts) (tx : Transaction)
    (db : Accounts) : outcome (bool * error * Accounts) → Prop :=
  | ends_panic msg :
      changes_of_instructions vdb (fee_change tx) 0%Z (Instrs tx) = Panic msg →
      isCommutative_ends vdb tx db (Panic msg)
  | ends_nonzero changes sum :
      changes_of_instructions vdb (fee_change tx) 0%Z (Instrs tx)
        = Ret (changes, sum) →
      sum ≠ 0%Z →
      isCommutative_ends vdb tx db
        (Ret (true, Some "instruction sum is non-zero"%string, db))
  | ends_missing changes :
      changes_of_instructions vdb (fee_change tx) 0%Z (Instrs tx)
        = Ret (changes, 0%Z) →
      missing_debit db changes →
      isCommutative_ends vdb tx db
        (Ret (true, Some "operation causes balance to go negative"%string, db))
  | ends_conflict changes :
      changes_of_instructions vdb (fee_change tx) 0%Z (Instrs tx)
        = Ret (changes, 0%Z) →
      overdraws db changes →
      isCommutative_ends vdb tx db (Ret (false, None, db))
  | ends_admit changes changes' :
      changes_of_instructions vdb (fee_change tx) 0%Z (Instrs tx)
        = Ret (changes, 0%Z) →
      ¬ missing_debit db changes →
      ¬ overdraws db changes →
      test_changes db (range changes) changes = inr changes' →
      isCommutative_ends vdb tx db
        (Ret (true, None, apply_changes db (range changes'))).

(** The payer has an account in [db] that covers the fee. *)
Definition affordable (db : Accounts) (tx : Transaction) : Prop :=
  ∃ balance, db !! Payer (Fee tx) = Some balance ∧
             (0 ≤ balance - Amount (Fee tx))%Z.

(** The loop variables after a turn that took [tx] off the queue and left
    [txHeap']. *)
Definition dropped (st : filling) (txHeap' : TransactionHeap) : filling :=
  {| batch := batch st; working := working st; chan := chan st;
     pending := txHeap' |}.
Definition forfeited (st : filling) (tx : Transaction)
    (txHeap' : TransactionHeap) : filling :=
  {| batch := batch st; working := Earn (working st) (Amount (Fee tx));
     chan := chan st; pending := txHeap' |}.
Definition requeued (st : filling) (tx : Transaction)
    (txHeap' : TransactionHeap) : filling :=
  {| batch := batch st; working := working st; chan := chan st ++ [tx];
     pending := txHeap' |}.
Definition admitted (st : filling) (tx : Transaction) (db' : Accounts)
    (txHeap' : TransactionHeap) : filling :=
  {| batch := batch st ++ [tx]; working := db'; chan := chan st;
     pending := txHeap' |}.

(** The ways a turn of the loop can end, [tx] being the transaction
    extracted and [txHeap'] the queue left. *)
Inductive fill_step_ends {order : RangeOrder} (vdb : Accounts) (st : filling)
    (tx : Transaction) (txHeap' : TransactionHeap) : outcome filling → Prop :=
  | turn_unaffordable :
      ¬ affordable (working st) tx →
      fill_step_ends vdb st tx txHeap' (Ret (dropped st txHeap'))
  | turn_panic msg :
      affordable (working st) tx →
      isCommutative vdb tx (working st) = Panic msg →
      fill_step_ends vdb st tx txHeap' (Panic msg)
  | turn_forfeit err :
      affordable (working st) tx →
      isCommutative vdb tx (working st) = Ret (true, Some err, working st) →
      fill_step_ends vdb st tx txHeap' (Ret (forfeited st tx txHeap'))
  | turn_requeue :
      affordable (working st) tx →
      isCommutative vdb tx (working st) = Ret (false, None, working st) →
      length (chan st) < 256 →
      fill_step_ends vdb st tx txHeap' (Ret (requeued st tx txHeap'))
  | turn_blocked :
      affordable (working st) tx →
      isCommutative vdb tx (working st) = Ret (false, None, working st) →
      256 ≤ length (chan st) →
      fill_step_ends vdb st tx txHeap' Blocked
  | turn_admit db' :
      affordable (working st) tx →
      isCommutative vdb tx (working st) = Ret (true, None, db') →
      fill_step_ends vdb st tx txHeap' (Ret (admitted st tx db' txHeap')).

(** A balance as [balance, _ := db.GetBalance(account)] reads it. *)
Definition balance (db : Accounts) (account : string) : Z :=
  (GetBalance db account).1.

(** An entry of a delta map, 0 when there is none. *)
Definition entry (changes : gmap string Z) (account : string) : Z :=
  default 0%Z (changes !! account).

Definition float_change (instr : Instruction) : Z :=
  match Change instr with Float64 change => change | _ => 0%Z end.

(** The part of a change the simulation applies, and the part it leaves to
    the commit. *)
Definition whole (change : Z) : Z := change.
Definition debit_part (change : Z) : Z := Z.min 0 change.
Definition credit_part (change : Z) : Z := Z.max 0 change.

(** The sum over the instructions on [account] of [part] of their change. *)
Fixpoint sum_on (account : string) (part : Z → Z) (instrs : list Instruction) : Z :=
  match instrs with
  | [] => 0%Z
  | instr :: instrs =>
      if decide (Account instr = account)
      then (part (float_change instr) + sum_on account part instrs)%Z
      else sum_on account part instrs
  end.

(** The positive absolute changes a batch makes to [account]. *)
Fixpoint credits (account : string) (batch : list Transaction) : Z :=
  match batch with
  | [] => 0%Z
  | tx :: batch =>
      (sum_on account credit_part (Instrs tx) + credits account batch)%Z
  end.

(** What the first block of the commit loop does to [account]: the payer
    is set to its balance less the fee, after the validator account has been
    credited the fee. *)
Definition fee_effect (tx : Transaction) (account : string) : Z :=
  if decide (account = Payer (Fee tx)) then (- Amount (Fee tx))%Z
  else if decide (account = "validator"%string) then Amount (Fee tx)
  else 0%Z.

(** What committing a batch of absolute changes adds to [account]. *)
Fixpoint commit_effect (account : string) (batch : list Transaction) : Z :=
  match batch with
  | [] => 0%Z
  | tx :: batch =>
      (fee_effect tx account + sum_on account whole (Instrs tx)
       + commit_effect account batch)%Z
  end.

(** The fees of a batch. *)
Fixpoint fees (batch : list Transaction) : Z :=
  match batch with
  | [] => 0%Z
  | tx :: batch => (Amount (Fee tx) + fees batch)%Z
  end.

(** The validator account is neither the payer of [tx] nor named by one of
    its instructions. *)
Definition beside_validator (tx : Transaction) : Prop :=
  Payer (Fee tx) ≠ "validator"%string ∧
  Forall (λ instr, Account instr ≠ "validator"%string) (Instrs tx).

Definition absolute_only (tx : Transaction) : Prop :=
  Forall (λ instr, IsChangeFloat64 instr = true) (Instrs tx).

(** The ledger is the working snapshot plus the credits of the batch,
    the validator account apart. *)
Definition commit_adds_credits (vdb : Accounts) (st : filling) : Prop :=
  ∃ db', commit_transactions vdb (batch st) = Ret db' ∧
    ∀ account, account ≠ "validator"%string →
      balance db' account
      = (balance (working st) account + credits account (batch st))%Z.

(** Every queued transaction records the slot it sits in. *)
Definition indexed (h : TransactionHeap) : Prop :=
  ∀ i tx, h !! i = Some tx → index tx = Z.of_nat i.

(** Scores do not rise along the list. *)
Definition descending (l : list Transaction) : Prop :=
  ∀ i j a b, i < j → l !! i = Some a → l !! j = Some b → (prio b ≤ prio a)%Z.

(** The batch is in descending order of score, no queued transaction has
    a higher score than an admitted one, and the queue is in heap shape. *)
Definition priority_order (st : filling) : Prop :=
  descending (batch st) ∧
  (∀ a p, a ∈ batch st → p ∈ pending st → (prio p ≤ prio a)%Z) ∧
  heapOrdered (pending st).

(** The accounts [CommitBatch] writes for a transaction of absolute
    changes. *)
Definition touched (tx : Transaction) : gset string :=
  {[ "validator"%string ]} ∪ {[ Payer (Fee tx) ]}
  ∪ list_to_set (Account <$> Instrs tx).

Definition touched_by (batch : list Transaction) : gset string :=
  ⋃ (touched <$> batch).

(** [n] turns of the outer [for] of [ProcessTransactions], one after the
    other; the batches sent on the way are not kept. *)
Fixpoint ProcessTransactions_turns {order : RangeOrder} (n : nat)
    (vali : Validator) : outcome Validator :=
  match n with
  | O => Ret vali
  | S n =>
      '(vali, _) ← ProcessTransactions_turn vali;
      ProcessTransactions_turns n vali
  end.

(** An instruction the two type switches can read: an absolute change, or
    a transfer whose target is an account of [vdb] and whose sign is plus or
    minus. *)
Definition readable (vdb : Accounts) (instr : Instruction) : bool :=
  match Change instr with
  | Float64 _ => true
  | Object change =>
      match change !! "account"%string, change !! "sign"%string with
      | Some (FString target), Some (FString sign) =>
          bool_decide (is_Some (vdb !! target))
          && (String.eqb sign "plus" || String.eqb sign "minus")
      | _, _ => false
      end
  | Unexpected => false
  end.

(** * Example data *)

(** A transaction as [ReceiveTransactions] queues it: decoded, then scored. *)
Definition received (payer : string) (amount : Z) (instrs : list Instruction)
  : Transaction :=
  let tx := {| base := {| fee := {| Payer := payer; Amount := amount |};
                          Instructions := instrs |};
               prio := 0; index := 0 |} in
  {| base := base tx; prio := CalcScore tx; index := 0 |}.

Definition absolute (account : string) (change : Z) : Instruction :=
  {| Account := account; Change := Float64 change |}.

Definition relative (account target sign : string) : Instruction :=
  {| Account := account;
     Change := Object (<["account"%string := FString target]>
                         {["sign"%string := FString sign]}) |}.

Definition queue (txs : list Transaction) : TransactionHeap :=
  foldl PushTransaction [] txs.

Definition validator_of (accounts : Accounts) (txs : list Transaction)
  : Validator :=
  {| db := accounts; txCh := []; batchIdx := 0; txHeap := queue txs |}.

(** The ledger and the two transactions of the specification's examples. *)
Definition ledger : Accounts :=
  <["alice"%string := 100%Z]> (<["bob"%string := 50%Z]> {["validator"%string := 0%Z]}).

Definition pay_bob : Transaction :=
  received "alice" 10 [absolute "alice" (-10); absolute "bob" 10].

Definition overspend : Transaction :=
  received "alice" 5 [absolute "alice" (-90); absolute "bob" 90].

(** A transaction that debits an account the ledger does not have. *)
Definition debit_ghost : Transaction :=
  received "alice" 1 [absolute "ghost" (-5); absolute "alice" 5].

(** A store with the ledger at address 0 and a copy of it at address 1. *)
Definition two_databases : gmap nat (gmap string Z) :=
  <[1 := ledger]> {[0 := ledger]}.

(** The loop variables in the specification's second example: [pay_bob] has
    been admitted, [overspend] is next. *)
Definition after_pay_bob : filling :=
  {| batch := [pay_bob];
     working := <["alice"%string := 80%Z]> ledger;
     chan := [];
     pending := queue [overspend] |}.

(** The loop variables at the start of a pass with [debit_ghost] queued. *)
Definition before_debit_ghost : filling :=
  {| batch := []; working := ledger; chan := []; pending := queue [debit_ghost] |}.

(** Reads a balance off the ledger a pass leaves. *)
Definition balance_after (r : outcome (Validator * option (list Transaction)))
    (account : string) : outcome (option Z) :=
  '(vali, _) ← r; Ret (db vali !! account).

Definition ledger_with_carol : Accounts := <["carol"%string := 100%Z]> ledger.

(** bob is to lose what carol has. *)
Definition borrow : Transaction :=
  received "alice" 1 [relative "bob" "carol" "minus"].

Definition ledger_with_dave : Accounts :=
  <["carol"%string := 0%Z]> (<["dave"%string := 100%Z]> ledger).

Definition credit_bob : Transaction :=
  received "alice" 2 [absolute "bob" 10; absolute "alice" (-10)].

(** carol is to gain what bob has; dave gives up as much. *)
Definition mirror_bob : Transaction :=
  received "dave" 1 [relative "carol" "bob" "plus"; absolute "dave" (-50)].

(** Instructions that do not sum to zero. *)
Definition unbalanced : Transaction :=
  received "alice" 7 [absolute "bob" 5].

(** A queue of three transactions, of scores 45, 20 and 3. *)
Definition three_queued : TransactionHeap :=
  PushTransaction
    (PushTransaction
       (PushTransaction []
          {| base := {| fee := {| Payer := "alice"; Amount := 5 |};
                        Instructions := [] |}; prio := 20; index := 0 |})
       {| base := {| fee := {| Payer := "bob"; Amount := 10 |};
                     Instructions := [] |}; prio := 45; index := 0 |})
    {| base := {| fee := {| Payer := "carol"; Amount := 1 |};
                  Instructions := [] |}; prio := 3; index := 0 |}.

(** A transaction of score 98. *)
Definition urgent : Transaction := received "alice" 20 [absolute "alice" 0].

(** [range] in the opposite order. *)
Definition reversed_order : RangeOrder :=
  {| range := λ m, reverse (map_to_list m);
     range_perm := λ m, reverse_Permutation (map_to_list m) |}.

(** A transaction paid by an account the ledger does not have. *)
Definition from_ghost : Transaction := received "ghost" 1 [].

Definition before_from_ghost : filling :=
  {| batch := []; working := ledger; chan := []; pending := queue [from_ghost] |}.

Definition before_unbalanced : filling :=
  {| batch := []; working := ledger; chan := []; pending := queue [unbalanced] |}.

(** As [after_pay_bob], with the channel full. *)
Definition channel_full : filling :=
  {| batch := [pay_bob];
     working := <["alice"%string := 80%Z]> ledger;
     chan := replicate 256 overspend;
     pending := queue [overspend] |}.

(** * Properties *)

(** ** container/heap over TransactionHeap *)

Section heap_facts.

Implicit Types (h : list Transaction) (i j k n : nat).

Lemma parent_go j :
  Z.of_nat ((j - 1) / 2) = Z.quot (Z.of_nat j - 1) 2.
Proof.
  destruct j as [|j].
  - reflexivity.
  - replace (Z.of_nat (S j) - 1)%Z with (Z.of_nat j) by lia.
    rewrite Z.quot_div_nonneg by lia.
    replace (S j - 1) with j by lia.
    apply (Nat2Z.inj_div j 2).
Qed.

Lemma parent_spec k : 2 * ((k - 1) / 2) ≤ k - 1 < 2 * ((k - 1) / 2) + 2.
Proof.
  pose proof (Nat.div_mod_eq (k - 1) 2).
  pose proof (Nat.mod_upper_bound (k - 1) 2). lia.
Qed.

(** [lia], told what the parent of each index in sight is. *)
Ltac parents :=
  repeat match goal with
  | |- context [(?k - 1) / 2] =>
      lazymatch goal with
      | _ : 2 * ((k - 1) / 2) ≤ k - 1 < _ |- _ => fail
      | _ => pose proof (parent_spec k)
      end
  | _ : context [(?k - 1) / 2] |- _ =>
      lazymatch goal with
      | _ : 2 * ((k - 1) / 2) ≤ k - 1 < _ |- _ => fail
      | _ => pose proof (parent_spec k)
      end
  end.
Ltac plia := parents; lia.

Lemma Swap_length h i j : length (Swap h i j) = length h.
Proof. unfold Swap. by rewrite !length_insert. Qed.

Lemma lookup_total_Swap h i j k :
  i < length h → j < length h →
  Swap h i j !!! k =
    if decide (k = j) then set_index (h !!! i) (Z.of_nat j)
    else if decide (k = i) then set_index (h !!! j) (Z.of_nat i)
    else h !!! k.
Proof.
  intros Hi Hj. unfold Swap.
  destruct (decide (k = j)) as [->|Hkj].
  - by rewrite list_lookup_total_insert_eq by (by rewrite length_insert).
  - rewrite list_lookup_total_insert_ne by done.
    destruct (decide (k = i)) as [->|Hki].
    + by rewrite list_lookup_total_insert_eq.
    + by rewrite list_lookup_total_insert_ne.
Qed.

Lemma prio_Swap h i j k :
  i < length h → j < length h →
  prio (Swap h i j !!! k) =
    if decide (k = j) then prio (h !!! i)
    else if decide (k = i) then prio (h !!! j)
    else prio (h !!! k).
Proof.
  intros Hi Hj. rewrite lookup_total_Swap by done.
  repeat case_decide; done.
Qed.

Lemma Swap_lookup_other h i j k :
  k ≠ i → k ≠ j → Swap h i j !! k = h !! k.
Proof.
  intros Hi Hj. unfold Swap.
  by rewrite !list_lookup_insert_ne.
Qed.

Lemma payload_set_index tx z : payload (set_index tx z) = payload tx.
Proof. done. Qed.

Lemma Swap_payload h i j :
  i < length h → j < length h →
  payload <$> Swap h i j ≡ₚ payload <$> h.
Proof.
  intros Hi Hj. apply Permutation_inj. split.
  { by rewrite !length_fmap, Swap_length. }
  exists (λ k, if decide (k = j) then i else if decide (k = i) then j else k).
  split.
  - intros a b. repeat case_decide; lia.
  - intros k. rewrite !list_lookup_fmap.
    destruct (decide (k < length h)) as [Hk|Hk].
    + rewrite (list_lookup_lookup_total_lt (Swap h i j) k) by (by rewrite Swap_length).
      rewrite lookup_total_Swap by done.
      repeat case_decide; subst;
        by (rewrite list_lookup_lookup_total_lt by done).
    + rewrite (lookup_ge_None_2 (Swap h i j)) by (rewrite Swap_length; lia).
      repeat case_decide; try lia.
      by rewrite lookup_ge_None_2 by lia.
Qed.

(** *** [up] *)

Lemma up_loop_S fuel h j :
  heap.up_loop (S fuel) h j =
    let i := (j - 1) / 2 in
    if (i =? j) || negb (Less h j i) then h
    else heap.up_loop fuel (Swap h i j) i.
Proof. reflexivity. Qed.

Lemma up_loop_fuel f1 f2 h j :
  j < f1 → j < f2 → heap.up_loop f1 h j = heap.up_loop f2 h j.
Proof.
  revert f2 h j. induction f1 as [|f1 IH]; intros f2 h j H1 H2; [plia|].
  destruct f2 as [|f2]; [plia|].
  rewrite !up_loop_S. cbv zeta.
  destruct (Nat.eqb_spec ((j - 1) / 2) j) as [E|E]; [done|].
  cbn [orb]. destruct (negb _); [done|].
  apply IH; plia.
Qed.

Lemma up_loop_length fuel h j :
  j < length h → length (heap.up_loop fuel h j) = length h.
Proof.
  revert h j. induction fuel as [|fuel IH]; intros h j Hj; [done|].
  rewrite up_loop_S. cbv zeta.
  destruct (_ || _); [done|].
  rewrite IH; rewrite Swap_length; [done|plia].
Qed.

Lemma up_loop_payload fuel h j :
  j < length h → payload <$> heap.up_loop fuel h j ≡ₚ payload <$> h.
Proof.
  revert h j. induction fuel as [|fuel IH]; intros h j Hj; [done|].
  rewrite up_loop_S. cbv zeta.
  destruct (_ || _); [done|].
  rewrite IH by (rewrite Swap_length; plia).
  apply Swap_payload; plia.
Qed.

Lemma up_loop_heapOrdered fuel h j :
  j < fuel → j < length h → up_inv h j →
  heapOrdered (heap.up_loop fuel h j).
Proof.
  revert h j. induction fuel as [|fuel IH]; intros h j Hf Hj [Hk Hg]; [plia|].
  rewrite up_loop_S. cbv zeta.
  destruct (Nat.eqb_spec ((j - 1) / 2) j) as [E|E]; cbn [orb].
  { intros k Hlt. apply Hk; [done|]. plia. }
  unfold Less.
  destruct (Z.gtb_spec (prio (h !!! j)) (prio (h !!! ((j - 1) / 2)))) as [G|G];
    cbn [negb].
  2: { intros k Hlt. destruct (decide (k = j)) as [->|]; [plia|]. by apply Hk. }
  set (i := (j - 1) / 2) in *.
  assert (i < j) as Hij by (subst i; plia).
  apply IH; [plia|rewrite Swap_length; plia|].
  split.
  - intros k Hlt Hki. rewrite Swap_length in Hlt.
    rewrite !prio_Swap by plia.
    destruct (decide (k = j)) as [->|Hkj].
    + rewrite decide_False by plia. fold i. rewrite decide_True by done. plia.
    + rewrite (decide_False (P := k = i)) by done.
      destruct (decide ((k - 1) / 2 = j)) as [Ekj|Ekj].
      * apply Hg; plia.
      * destruct (decide ((k - 1) / 2 = i)) as [Eki|Eki].
        -- specialize (Hk k Hlt Hkj). rewrite Eki in Hk. plia.
        -- by apply Hk.
  - intros k Hlt Epk Hi. rewrite Swap_length in Hlt.
    rewrite !prio_Swap by plia.
    rewrite (decide_False (P := (i - 1) / 2 = j)) by plia.
    rewrite (decide_False (P := (i - 1) / 2 = i)) by plia.
    assert (prio (h !!! i) ≤ prio (h !!! ((i - 1) / 2)%nat))%Z as Hpi
      by (apply Hk; plia).
    destruct (decide (k = j)) as [->|Hkj]; [done|].
    rewrite decide_False by plia.
    specialize (Hk k Hlt Hkj). rewrite Epk in Hk. plia.
Qed.

Lemma Push_up_inv h tx :
  heapOrdered h → up_inv (Push h tx) (length h).
Proof.
  intros Hh. unfold Push. split.
  - intros k Hlt Hne. rewrite length_app in Hlt. cbn in Hlt.
    rewrite !lookup_total_app_l by plia. apply Hh. plia.
  - intros k Hlt Epk Hpos. rewrite length_app in Hlt. cbn in Hlt. plia.
Qed.

Lemma PushTransaction_unfold h tx :
  PushTransaction h tx = heap.up_loop (S (length h)) (Push h tx) (length h).
Proof.
  unfold PushTransaction, heap.hPush, heap.up.
  change (heap.Push h tx) with (Push h tx).
  change (heap.Len (Push h tx)) with (length (Push h tx)).
  unfold Push at 1 3. rewrite length_app. cbn [length].
  by replace (length h + 1 - 1) with (length h) by lia.
Qed.

Lemma PushTransaction_heapOrdered h tx :
  heapOrdered h → heapOrdered (PushTransaction h tx).
Proof.
  intros Hh. rewrite PushTransaction_unfold.
  apply up_loop_heapOrdered; [lia| |by apply Push_up_inv].
  unfold Push. rewrite length_app. cbn. lia.
Qed.

Lemma PushTransaction_payload h tx :
  payload <$> PushTransaction h tx ≡ₚ payload tx :: (payload <$> h).
Proof.
  rewrite PushTransaction_unfold.
  rewrite up_loop_payload by (unfold Push; rewrite length_app; cbn; lia).
  unfold Push. rewrite fmap_app. cbn.
  by rewrite <-Permutation_cons_append.
Qed.

Lemma PushTransaction_length h tx :
  length (PushTransaction h tx) = S (length h).
Proof.
  rewrite PushTransaction_unfold.
  rewrite up_loop_length; unfold Push; rewrite length_app; cbn; lia.
Qed.

(** *** [down] *)

Lemma down_loop_S fuel h i n :
  heap.down_loop (S fuel) h i n =
    let j1 := 2 * i + 1 in
    if n <=? j1 then h
    else
      let j := if (j1 + 1 <? n) && Less h (j1 + 1) j1 then j1 + 1 else j1 in
      if negb (Less h j i) then h
      else heap.down_loop fuel (Swap h i j) j n.
Proof. reflexivity. Qed.

Lemma larger_child_cases h i n :
  2 * i + 1 < n →
  let j := larger_child h i n in
  (j = 2 * i + 1 ∨ j = 2 * i + 2) ∧ j < n ∧
  ∀ k, 0 < k < n → (k - 1) / 2 = i → (prio (h !!! k) ≤ prio (h !!! j))%Z.
Proof.
  intros Hn. unfold larger_child, Less.
  destruct (Nat.ltb_spec (2 * i + 1 + 1) n) as [L|L]; cbn [andb].
  - destruct (Z.gtb_spec (prio (h !!! (2 * i + 1 + 1))) (prio (h !!! (2 * i + 1))))
      as [G|G].
    + split; [lia|]. split; [lia|]. intros k Hk Ek.
      assert (k = 2 * i + 1 ∨ k = 2 * i + 1 + 1) as [->| ->] by plia; lia.
    + split; [lia|]. split; [lia|]. intros k Hk Ek.
      assert (k = 2 * i + 1 ∨ k = 2 * i + 1 + 1) as [->| ->] by plia; lia.
  - split; [lia|]. split; [lia|]. intros k Hk Ek.
    assert (k = 2 * i + 1) as -> by plia. lia.
Qed.

Lemma down_loop_fuel f1 f2 h i n :
  n - i ≤ f1 → n - i ≤ f2 → heap.down_loop f1 h i n = heap.down_loop f2 h i n.
Proof.
  revert f2 h i. induction f1 as [|f1 IH]; intros f2 h i H1 H2.
  - destruct f2 as [|f2]; [done|]. rewrite down_loop_S. cbv zeta.
    by rewrite (proj2 (Nat.leb_le _ _)) by lia.
  - destruct f2 as [|f2].
    + rewrite down_loop_S. cbv zeta.
      by rewrite (proj2 (Nat.leb_le _ _)) by lia.
    + rewrite !down_loop_S. cbv zeta.
      destruct (Nat.leb_spec n (2 * i + 1)) as [L|L]; [done|].
      fold (larger_child h i n).
      destruct (larger_child_cases h i n L) as ([E|E] & _ & _);
        destruct (negb _); try done; apply IH; lia.
Qed.

Lemma down_loop_length fuel h i n :
  n ≤ length h → length (heap.down_loop fuel h i n) = length h.
Proof.
  revert h i. induction fuel as [|fuel IH]; intros h i Hn; [done|].
  rewrite down_loop_S. cbv zeta.
  destruct (Nat.leb_spec n (2 * i + 1)) as [L|L]; [done|].
  destruct (negb _); [done|].
  rewrite IH; rewrite Swap_length; done.
Qed.

Lemma down_loop_payload fuel h i n :
  n ≤ length h → payload <$> heap.down_loop fuel h i n ≡ₚ payload <$> h.
Proof.
  revert h i. induction fuel as [|fuel IH]; intros h i Hn; [done|].
  rewrite down_loop_S. cbv zeta.
  destruct (Nat.leb_spec n (2 * i + 1)) as [L|L]; [done|].
  fold (larger_child h i n).
  destruct (larger_child_cases h i n L) as (_ & Hj & _).
  destruct (negb _); [done|].
  rewrite IH by (by rewrite Swap_length).
  apply Swap_payload; lia.
Qed.

(** [down] leaves the slots from [n] on alone. *)
Lemma down_loop_lookup_ge fuel h i n k :
  n ≤ k → heap.down_loop fuel h i n !! k = h !! k.
Proof.
  revert h i. induction fuel as [|fuel IH]; intros h i Hk; [done|].
  rewrite down_loop_S. cbv zeta.
  destruct (Nat.leb_spec n (2 * i + 1)) as [L|L]; [done|].
  fold (larger_child h i n).
  destruct (larger_child_cases h i n L) as (_ & Hj & _).
  destruct (negb _); [done|].
  rewrite IH by done. apply Swap_lookup_other; lia.
Qed.

Lemma down_loop_ordered fuel h i n :
  n ≤ length h → n - i ≤ fuel → down_inv h i n →
  ∀ k, 0 < k < n →
    (prio (heap.down_loop fuel h i n !!! k)
     ≤ prio (heap.down_loop fuel h i n !!! ((k - 1) / 2)%nat))%Z.
Proof.
  revert h i. induction fuel as [|fuel IH]; intros h i Hn Hf [Hk Hg].
  { intros k Hlt. cbn. apply Hk; [done|]. plia. }
  rewrite down_loop_S. cbv zeta.
  destruct (Nat.leb_spec n (2 * i + 1)) as [L|L].
  { intros k Hlt. apply Hk; [done|]. plia. }
  fold (larger_child h i n).
  destruct (larger_child_cases h i n L) as (Hj & Hjn & Hmax).
  set (j := larger_child h i n) in *.
  assert (Less h j i = bool_decide (prio (h !!! i) < prio (h !!! j))%Z) as ->.
  { unfold Less. case_bool_decide; lia. }
  case_bool_decide as G; cbn [negb].
  2: { intros k Hlt. destruct (decide ((k - 1) / 2 = i)) as [E|E].
       - rewrite E. specialize (Hmax k Hlt E). lia.
       - by apply Hk. }
  assert (i < j) as Hij by lia.
  assert ((j - 1) / 2 = i) as Epj by plia.
  apply IH; [by rewrite Swap_length|lia|].
  split.
  - intros k Hlt Hpk. rewrite !prio_Swap by lia.
    destruct (decide (k = j)) as [->|Hkj].
    + rewrite Epj. rewrite decide_False by lia. rewrite decide_True by done. lia.
    + destruct (decide (k = i)) as [->|Hki].
      * rewrite (decide_False (P := (i - 1) / 2 = j)) by plia.
        rewrite (decide_False (P := (i - 1) / 2 = i)) by plia.
        apply Hg; plia.
      * rewrite (decide_False (P := (k - 1) / 2 = j)) by done.
        destruct (decide ((k - 1) / 2 = i)) as [E|E].
        -- by apply Hmax.
        -- by apply Hk.
  - intros k Hlt Epk _. rewrite !prio_Swap by lia.
    rewrite Epj. rewrite (decide_False (P := i = j)) by lia.
    rewrite (decide_True (P := i = i)) by done.
    rewrite (decide_False (P := k = j)) by plia.
    rewrite (decide_False (P := k = i)) by plia.
    rewrite <-Epk. apply Hk; [done|]. plia.
Qed.

(** *** The root of a heap *)

Lemma heapOrdered_root h k :
  heapOrdered h → k < length h → (prio (h !!! k) ≤ prio (h !!! 0%nat))%Z.
Proof.
  intros Hh. induction (lt_wf k) as [k _ IH]. intros Hk.
  destruct (decide (k = 0)) as [->|Hk0]; [lia|].
  specialize (Hh k ltac:(lia)).
  assert ((k - 1) / 2 < k) as Hp by plia.
  specialize (IH _ Hp ltac:(lia)). lia.
Qed.

Lemma heapOrdered_nil : heapOrdered [].
Proof. intros j Hj. cbn in Hj. lia. Qed.

(** *** [NextTransaction] *)

Lemma NextTransaction_unfold h :
  NextTransaction h =
    if length h =? 0 then Panic "index out of range [-1]"
    else
      let n := length h - 1 in
      Pop (heap.down_loop n (Swap h 0 n) 0 n).
Proof. reflexivity. Qed.

Lemma NextTransaction_Ret h :
  h ≠ [] →
  ∃ tx h',
    NextTransaction h = Ret (tx, h') ∧
    tx = set_index (h !!! 0) (-1) ∧
    length h = S (length h') ∧
    payload <$> h ≡ₚ payload tx :: (payload <$> h') ∧
    (heapOrdered h → heapOrdered h').
Proof.
  intros Hne. rewrite NextTransaction_unfold.
  assert (0 < length h) as Hlen by (destruct h; [done|cbn; lia]).
  rewrite (proj2 (Nat.eqb_neq _ _)) by lia. cbv zeta.
  set (n := length h - 1).
  set (h1 := Swap h 0 n).
  set (h2 := heap.down_loop n h1 0 n).
  assert (length h1 = S n) as Hl1 by (subst h1; rewrite Swap_length; lia).
  assert (length h2 = S n) as Hl2
    by (subst h2; rewrite down_loop_length; lia).
  assert (h2 !! n = Some (set_index (h !!! 0) (Z.of_nat n))) as Hlast.
  { subst h2. rewrite down_loop_lookup_ge by done.
    rewrite list_lookup_lookup_total_lt by lia. subst h1.
    rewrite lookup_total_Swap by lia. by rewrite decide_True. }
  unfold Pop. rewrite last_lookup, Hl2. cbn [pred]. rewrite Hlast.
  replace (S n - 1) with n by lia.
  eexists _, _. split; [reflexivity|].
  split; [done|].
  split; [rewrite length_take; lia|].
  split.
  - rewrite payload_set_index.
    transitivity (payload <$> h2).
    { subst h2 h1. rewrite down_loop_payload by (rewrite Swap_length; lia).
      symmetry. apply Swap_payload; lia. }
    rewrite <-(take_drop n h2) at 1.
    rewrite (drop_S h2 _ n Hlast).
    rewrite drop_ge by lia.
    rewrite fmap_app. cbn. rewrite payload_set_index.
    by rewrite <-Permutation_cons_append.
  - intros Hh j Hj. rewrite length_take in Hj.
    assert ((j - 1) / 2 < n) by plia.
    rewrite !lookup_total_take_lt by lia.
    subst h2. apply down_loop_ordered; [lia|lia| |lia].
    split.
    + intros k Hk Hpk. subst h1. rewrite !prio_Swap by lia.
      rewrite (decide_False (P := k = n)) by lia.
      rewrite (decide_False (P := k = 0)) by lia.
      rewrite (decide_False (P := (k - 1) / 2 = n)) by plia.
      rewrite (decide_False (P := (k - 1) / 2 = 0)) by done.
      apply Hh. lia.
    + intros; lia.
Qed.

Lemma NextTransaction_nil :
  NextTransaction [] = Panic "index out of range [-1]".
Proof. reflexivity. Qed.



End heap_facts.

(** ** The score *)

Lemma score_as_fraction tx :
  ((inject_Z (Amount (Fee tx)) * 10
    + inject_Z (Z.of_nat (length (Instrs tx)) * -5)) / 2
   == (Amount (Fee tx) * 10 + Z.of_nat (length (Instrs tx)) * -5) # 2)%Q.
Proof.
  unfold Qdiv, Qeq, Qmult, Qplus, Qinv, inject_Z. cbn. lia.
Qed.

Lemma Qceiling_half (s : Z) : Qceiling (s # 2) = ((s + 1) / 2)%Z.
Proof.
  unfold Qceiling, Qfloor, Qopp. cbn.
  Z.div_mod_to_equations. lia.
Qed.

Lemma CalcScore_closed tx :
  CalcScore tx =
    ((Amount (Fee tx) * 10 + Z.of_nat (length (Instrs tx)) * -5 + 1) / 2)%Z.
Proof.
  unfold CalcScore. cbv zeta.
  rewrite (Qceiling_comp _ _ (score_as_fraction tx)).
  apply Qceiling_half.
Qed.

Lemma score_as_quotient tx :
  ((inject_Z (Amount (Fee tx)) * 10
    + inject_Z (Z.of_nat (length (Instrs tx)) * -5)) / 2
   == inject_Z (Amount (Fee tx) * 10 + Z.of_nat (length (Instrs tx)) * -5) / 2)%Q.
Proof.
  unfold Qdiv, Qeq, Qmult, Qplus, Qinv, inject_Z. cbn. lia.
Qed.


(** ** isCommutative *)

Lemma change_of_instruction_runs vdb changes sum instr :
  (∃ r, change_of_instruction vdb changes sum instr = Ret r) ∨
  (∃ msg, change_of_instruction vdb changes sum instr = Panic msg).
Proof.
  unfold change_of_instruction.
  repeat (case_match; eauto).
Qed.

Lemma changes_of_instructions_runs vdb changes sum instrs :
  (∃ r, changes_of_instructions vdb changes sum instrs = Ret r) ∨
  (∃ msg, changes_of_instructions vdb changes sum instrs = Panic msg).
Proof.
  revert changes sum. induction instrs as [|instr instrs IH]; intros changes sum.
  - left. by eexists.
  - cbn [changes_of_instructions].
    destruct (change_of_instruction_runs vdb changes sum instr)
      as [[[changes' sum'] ->]|[msg ->]]; cbn; eauto.
Qed.

(** What the first loop over [changes] has seen when it returns early, and
    when it does not. *)
Lemma test_changes_inl db entries changes commutative err :
  test_changes db entries changes = inl (commutative, err) →
  (commutative = true ∧
   err = Some "operation causes balance to go negative"%string ∧
   ∃ account change, (account, change) ∈ entries ∧
     db !! account = None ∧ (change < 0)%Z) ∨
  (commutative = false ∧ err = None ∧
   ∃ account change balance, (account, change) ∈ entries ∧
     db !! account = Some balance ∧ (balance + change < 0)%Z).
Proof.
  revert changes.
  induction entries as [|[account change] entries IH]; intros changes; [done|].
  cbn [test_changes]. unfold GetBalance.
  destruct (db !! account) as [balance|] eqn:Hdb.
  - destruct (Z.ltb_spec (balance + change) 0) as [L|L].
    + intros [= <- <-]. right. repeat split.
      exists account, change, balance. split; [left|done].
    + intros H. apply IH in H.
      destruct H as [(-> & -> & a & c & Hin & ?)|(-> & -> & a & c & b & Hin & ?)].
      * left. repeat split. exists a, c. split; [by right|done].
      * right. repeat split. exists a, c, b. split; [by right|done].
  - destruct (Z.ltb_spec change 0) as [L|L].
    + intros [= <- <-]. left. repeat split.
      exists account, change. split; [left|done].
    + intros H. apply IH in H.
      destruct H as [(-> & -> & a & c & Hin & ?)|(-> & -> & a & c & b & Hin & ?)].
      * left. repeat split. exists a, c. split; [by right|done].
      * right. repeat split. exists a, c, b. split; [by right|done].
Qed.

Lemma test_changes_inr db entries changes changes' :
  test_changes db entries changes = inr changes' →
  (∀ account change, (account, change) ∈ entries →
     match db !! account with
     | Some balance => (0 ≤ balance + change)%Z
     | None => (0 ≤ change)%Z
     end) ∧
  ∀ account,
    changes' !! account =
      if bool_decide (account ∈ entries.*1 ∧ db !! account = None)
      then None else changes !! account.
Proof.
  revert changes.
  induction entries as [|[account change] entries IH]; intros changes.
  - intros [= <-]. split; [by intros ?? ?%elem_of_nil|].
    intros a. rewrite bool_decide_eq_false_2; [done|].
    intros [?%elem_of_nil _]. done.
  - cbn [test_changes]. unfold GetBalance.
    destruct (db !! account) as [balance|] eqn:Hdb.
    + destruct (Z.ltb_spec (balance + change) 0) as [L|L]; [done|].
      intros H. apply IH in H as [H1 H2]. split.
      * intros a c [[= -> ->]|Hin]%elem_of_cons; [by rewrite Hdb|by apply H1].
      * intros a. rewrite H2. cbn [fmap list_fmap fst].
        apply (f_equal (λ b : bool, if b then _ else _)).
        apply bool_decide_ext. rewrite elem_of_cons.
        split; [naive_solver|]. intros [[->|?] ?]; [congruence|done].
    + destruct (Z.ltb_spec change 0) as [L|L]; [done|].
      intros H. apply IH in H as [H1 H2]. split.
      * intros a c [[= -> ->]|Hin]%elem_of_cons; [by rewrite Hdb|by apply H1].
      * intros a. rewrite H2. cbn [fmap list_fmap fst].
        destruct (decide (a = account)) as [->|Hne].
        -- rewrite lookup_delete_eq.
           rewrite (bool_decide_eq_true_2 (account ∈ account :: _ ∧ _))
             by (split; [left|done]).
           by case_bool_decide.
        -- rewrite lookup_delete_ne by done.
           apply (f_equal (λ b : bool, if b then _ else _)).
           apply bool_decide_ext. rewrite elem_of_cons. naive_solver.
Qed.

Section isCommutative_facts.
Context {order : RangeOrder}.

Lemma elem_of_range (changes : gmap string Z) account change :
  (account, change) ∈ range changes ↔ changes !! account = Some change.
Proof. by rewrite range_perm, elem_of_map_to_list. Qed.

Lemma NoDup_range (changes : gmap string Z) : NoDup (range changes).*1.
Proof. rewrite range_perm. apply NoDup_fst_map_to_list. Qed.

Lemma isCommutative_unfold vdb tx db :
  isCommutative vdb tx db =
    '(changes, sum) ← changes_of_instructions vdb (fee_change tx) 0%Z (Instrs tx);
    if negb (sum =? 0)%Z then
      Ret (true, Some "instruction sum is non-zero"%string, db)
    else
      match test_changes db (range changes) changes with
      | inl (commutative, err) => Ret (commutative, err, db)
      | inr changes => Ret (true, None, apply_changes db (range changes))
      end.
Proof. reflexivity. Qed.

Lemma isCommutative_how vdb tx db :
  isCommutative_ends vdb tx db (isCommutative vdb tx db).
Proof.
  rewrite isCommutative_unfold.
  destruct (changes_of_instructions_runs vdb (fee_change tx) 0%Z (Instrs tx))
    as [[[changes sum] Hc]|[msg Hc]]; rewrite Hc; cbn.
  2: { by constructor. }
  destruct (Z.eqb_spec sum 0) as [->|Hsum]; cbn [negb].
  2: { by econstructor. }
  destruct (test_changes db (range changes) changes) as [[c e]|changes'] eqn:Ht.
  - apply test_changes_inl in Ht
      as [(-> & -> & a & ch & Hin & ? & ?)|(-> & -> & a & ch & b & Hin & ? & ?)];
      apply elem_of_range in Hin.
    + eapply ends_missing; [done|]. by exists a, ch.
    + eapply ends_conflict; [done|]. by exists a, ch, b.
  - pose proof Ht as [Hok _]%test_changes_inr.
    eapply ends_admit; [done| | |done].
    + intros (a & ch & Hin%elem_of_range & Hdb & ?).
      specialize (Hok _ _ Hin). rewrite Hdb in Hok. lia.
    + intros (a & ch & b & Hin%elem_of_range & Hdb & ?).
      specialize (Hok _ _ Hin). rewrite Hdb in Hok. lia.
Qed.

(** Only an admitted transaction changes the copy. *)
Lemma isCommutative_frame vdb tx db commutative err db' :
  isCommutative vdb tx db = Ret (commutative, err, db') →
  (commutative = true ∧ err = None) ∨ db' = db.
Proof.
  intros H. pose proof (isCommutative_how vdb tx db) as Hc. rewrite H in Hc.
  inversion Hc; subst; auto.
Qed.

End isCommutative_facts.

(** ** One turn of the batch-filling loop *)

Section fill_facts.
Context {order : RangeOrder}.

Lemma fill_step_how vdb st tx txHeap' :
  NextTransaction (pending st) = Ret (tx, txHeap') →
  fill_step_ends vdb st tx txHeap' (fill_step vdb st).
Proof.
  intros Hnext. unfold fill_step. rewrite Hnext. cbn.
  unfold GetBalance.
  destruct (working st !! Payer (Fee tx)) as [balance|] eqn:Hpayer.
  2: { apply turn_unaffordable. intros (b & Hb & _). congruence. }
  destruct (Z.ltb_spec (balance - Amount (Fee tx)) 0) as [L|L].
  { apply turn_unaffordable. intros (b & Hb & ?).
    assert (b = balance) as -> by congruence. lia. }
  assert (affordable (working st) tx) as Haff by (by exists balance).
  pose proof (isCommutative_how vdb tx (working st)) as Hc.
  destruct (isCommutative vdb tx (working st))
    as [[[commutative err] db']|msg| |] eqn:Hic; cbn.
  - inversion Hc; subst; cbn.
    + by eapply turn_forfeit.
    + by eapply turn_forfeit.
    + unfold send.
      destruct (Nat.ltb_spec (length (chan st)) 256); cbn.
      * by apply turn_requeue.
      * by apply turn_blocked.
    + by apply turn_admit.
  - by apply turn_panic.
  - inversion Hc.
  - inversion Hc.
Qed.

Lemma NextTransaction_some h :
  h ≠ [] →
  ∃ tx h', NextTransaction h = Ret (tx, h') ∧ length h = S (length h').
Proof.
  intros Hne. destruct (NextTransaction_Ret h Hne) as (tx & h' & ? & _ & ? & _).
  eauto.
Qed.

Lemma filling_nonempty (st : filling) :
  (0 <? length (pending st)) = true → pending st ≠ [].
Proof. destruct (pending st); [done|done]. Qed.

(** The loop never admits a transaction into a full batch. *)
Lemma fill_batch_bound fuel vdb st st' :
  fill_batch fuel vdb st = Ret st' →
  length (batch st) ≤ 100 → length (batch st') ≤ 100.
Proof.
  revert st. induction fuel as [|fuel IH]; intros st; cbn [fill_batch].
  - destruct (_ && _); [done|]. by intros [= ->].
  - destruct (Nat.ltb_spec (length (batch st)) 100) as [L|L]; cbn [andb].
    2: { by intros [= ->]. }
    destruct (0 <? length (pending st)) eqn:Hq.
    2: { by intros [= ->]. }
    destruct (NextTransaction_some _ (filling_nonempty _ Hq))
      as (tx & h' & Hnext & _).
    pose proof (fill_step_how vdb st tx h' Hnext) as Hs.
    destruct (fill_step vdb st) as [st1| | |]; [|done..].
    cbn. intros Hrest _. apply (IH _ Hrest).
    inversion Hs; subst; cbn; try lia.
    rewrite length_app. cbn. lia.
Qed.

(** The fuel [build_batch] gives is enough: every turn takes one
    transaction off the queue. *)
Lemma fill_batch_fuel fuel vdb st :
  length (pending st) ≤ fuel → fill_batch fuel vdb st ≠ OutOfFuel.
Proof.
  revert st. induction fuel as [|fuel IH]; intros st Hlen; cbn [fill_batch].
  - destruct (pending st); [|cbn in Hlen; lia].
    by rewrite andb_false_r.
  - destruct (_ <? 100); cbn [andb]; [|done].
    destruct (0 <? length (pending st)) eqn:Hq; [|done].
    destruct (NextTransaction_some _ (filling_nonempty _ Hq))
      as (tx & h' & Hnext & Hlen').
    pose proof (fill_step_how vdb st tx h' Hnext) as Hs.
    destruct (fill_step vdb st) as [st1| | |]; [|done|done|inversion Hs].
    cbn. apply IH.
    assert (pending st1 = h') as -> by (inversion Hs; by subst).
    lia.
Qed.

Lemma build_batch_terminates vali : build_batch vali ≠ OutOfFuel.
Proof. by apply fill_batch_fuel. Qed.

(** The loop stops on its own condition. *)
Lemma fill_batch_exit fuel vdb st st' :
  fill_batch fuel vdb st = Ret st' →
  length (batch st') = 100 ∨ 100 < length (batch st) ∨ pending st' = [].
Proof.
  revert st. induction fuel as [|fuel IH]; intros st; cbn [fill_batch].
  - destruct (Nat.ltb_spec (length (batch st)) 100) as [L|L]; cbn [andb].
    + destruct (pending st) eqn:E; [|done]. cbn.
      intros [= <-]. auto.
    + intros [= <-]. lia.
  - destruct (Nat.ltb_spec (length (batch st)) 100) as [L|L]; cbn [andb].
    2: { intros [= <-]. lia. }
    destruct (0 <? length (pending st)) eqn:Hq.
    2: { intros [= <-]. destruct (pending st); [auto|done]. }
    destruct (NextTransaction_some _ (filling_nonempty _ Hq))
      as (tx & h' & Hnext & _).
    pose proof (fill_step_how vdb st tx h' Hnext) as Hs.
    destruct (fill_step vdb st) as [st1| | |]; [|done..].
    cbn. intros Hrest. destruct (IH _ Hrest) as [?|[Hlt|?]]; auto.
    exfalso. inversion Hs; subst; cbn in Hlt; try lia.
    rewrite length_app in Hlt. cbn in Hlt. lia.
Qed.

End fill_facts.

(** ** The queue stays in heap shape *)

Section queue_shape.
Context {order : RangeOrder}.

Lemma fill_step_heapOrdered vdb st st' :
  pending st ≠ [] →
  fill_step vdb st = Ret st' →
  heapOrdered (pending st) → heapOrdered (pending st').
Proof.
  intros Hne Hstep Hh.
  destruct (NextTransaction_Ret _ Hne) as (tx & h' & Hnext & _ & _ & _ & Hh').
  pose proof (fill_step_how vdb st tx h' Hnext) as Hs. rewrite Hstep in Hs.
  assert (pending st' = h') as -> by (inversion Hs; by subst).
  by apply Hh'.
Qed.

Lemma fill_batch_heapOrdered fuel vdb st st' :
  fill_batch fuel vdb st = Ret st' →
  heapOrdered (pending st) → heapOrdered (pending st').
Proof.
  revert st. induction fuel as [|fuel IH]; intros st; cbn [fill_batch].
  - destruct (_ && _); [done|]. by intros [= ->].
  - destruct (_ <? 100); cbn [andb]; [|by intros [= ->]].
    destruct (0 <? length (pending st)) eqn:Hq; [|by intros [= ->]].
    destruct (fill_step vdb st) as [st1| | |] eqn:Hstep; [|done..].
    cbn. intros Hrest Hh. apply (IH _ Hrest).
    eapply fill_step_heapOrdered; [|done..]. by apply filling_nonempty.
Qed.

(** Every turn of [ProcessTransactions] leaves the queue in heap shape. *)
Lemma ProcessTransactions_turn_heapOrdered vali vali' sent :
  ProcessTransactions_turn vali = Ret (vali', sent) →
  heapOrdered (txHeap vali) → heapOrdered (txHeap vali').
Proof.
  unfold ProcessTransactions_turn.
  destruct (txCh vali) as [|tx rest].
  2: { intros [= <- <-] Hh. cbn. by apply PushTransaction_heapOrdered. }
  unfold ProcessTransactions_default.
  destruct (length (txHeap vali) =? 0); [by intros [= <- <-]|].
  destruct (build_batch vali) as [st| | |] eqn:Hb; [|done..].
  cbn. intros H Hh.
  assert (heapOrdered (pending st)) as Hst
    by (by apply (fill_batch_heapOrdered _ _ _ _ Hb)).
  destruct (length (batch st) =? 0); [by injection H as <- <-|].
  unfold CommitBatch in H.
  destruct (commit_transactions _ _); [|done..].
  cbn in H. by injection H as <- <-.
Qed.

End queue_shape.

(** ** The batch bound *)

(** C9. The batch the filling loop ends with holds at most 100
    transactions.  When it is empty the pass returns without calling
    [CommitBatch]: the ledger and the batch counter are as before, and
    nothing is sent.  Otherwise that batch, of 1 to 100 transactions, is what
    [CommitBatch] is called on, and what is sent. *)
Theorem batch_bound {order : RangeOrder} vali st :
  build_batch vali = Ret st →
  length (batch st) ≤ 100 ∧
  match batch st with
  | [] =>
      ∃ vali', ProcessTransactions_default vali = Ret (vali', None) ∧
               db vali' = db vali ∧ batchIdx vali' = batchIdx vali
  | _ :: _ =>
      1 ≤ length (batch st) ∧
      ProcessTransactions_default vali =
        vali' ← CommitBatch (after_build vali st) (batch st);
        Ret (vali', Some (batch st))
  end.
Proof.
  intros Hb. split.
  { apply (fill_batch_bound _ _ _ _ Hb). cbn. lia. }
  unfold ProcessTransactions_default.
  destruct (Nat.eqb_spec (length (txHeap vali)) 0) as [E|E].
  - unfold build_batch in Hb. rewrite E in Hb. cbn in Hb.
    destruct (txHeap vali); [|done]. cbn in Hb.
    injection Hb as <-. cbn. eauto.
  - rewrite Hb. cbn. destruct (batch st) as [|tx b]; cbn.
    + eauto.
    + split; [lia|done].
Qed.

Lemma batch_bound_witness :
  ∃ st,
    build_batch (order := listed_order) (validator_of ledger [pay_bob; overspend])
      = Ret st ∧
    length (batch st) ≤ 100 ∧
    1 ≤ length (batch st).
Proof.
  destruct (build_batch (order := listed_order)
              (validator_of ledger [pay_bob; overspend])) as [st| | |] eqn:E;
    [|exfalso; vm_compute in E; discriminate..].
  exists st. split; [reflexivity|].
  destruct (batch_bound (order := listed_order) _ _ E) as [Hle H].
  split; [exact Hle|].
  destruct (batch st) as [|tx b] eqn:Eb.
  - exfalso. vm_compute in E. injection E as <-. discriminate Eb.
  - apply H.
Defined.

(** ** The copy and the ledger *)

Lemma Copy_fresh (σ : gmap nat (gmap string Z)) db copy σ' :
  Copy σ db = Ret (copy, σ') →
  copy ≠ db ∧ σ' !! copy = σ !! db ∧ ∀ p, p ≠ copy → σ' !! p = σ !! p.
Proof.
  unfold Copy. destruct (σ !! db) as [accounts|] eqn:Hdb; [|done].
  intros [= <- <-].
  pose proof (is_fresh (dom σ)) as Hfresh.
  split.
  { intros E. rewrite E in Hfresh. apply Hfresh, elem_of_dom. eauto. }
  split; [by rewrite lookup_insert_eq|].
  intros p Hp. by rewrite lookup_insert_ne.
Qed.

(** C10. Called on a copy that is not the ledger itself (what [Copy]
    returns never is: lemma [Copy_fresh]), [isCommutative] leaves the ledger,
    and every database other than the copy, as it was; and unless it reports
    the transaction commutative with no error, it leaves the copy as it was
    too. *)
Theorem isCommutative_frame_at {order : RangeOrder}
    (σ : gmap nat (gmap string Z)) vali_db tx db commutative err σ' :
  vali_db ≠ db →
  isCommutative_at σ vali_db tx db = Ret (commutative, err, σ') →
  σ' !! vali_db = σ !! vali_db ∧
  (∀ p, p ≠ db → σ' !! p = σ !! p) ∧
  ((commutative = true ∧ err = None) ∨ σ' = σ).
Proof.
  intros Hne. unfold isCommutative_at.
  destruct (σ !! vali_db) as [authoritative|] eqn:Ha; [|done].
  destruct (σ !! db) as [copy|] eqn:Hc; [|done].
  destruct (isCommutative authoritative tx copy)
    as [[[c e] copy']| | |] eqn:Hic; [|done..].
  cbn. intros [= -> -> <-].
  split; [by rewrite lookup_insert_ne|].
  split; [by intros p Hp; rewrite lookup_insert_ne|].
  destruct (isCommutative_frame _ _ _ _ _ _ Hic) as [?| ->]; [by left|].
  right. by apply insert_id.
Qed.

(** After [Copy], the call on the two addresses is the call on two equal
    databases, the result written to the copy. *)
Lemma isCommutative_at_copy {order : RangeOrder}
    (σ : gmap nat (gmap string Z)) vali_db accounts tx copy σ1 :
  σ !! vali_db = Some accounts →
  Copy σ vali_db = Ret (copy, σ1) →
  isCommutative_at σ1 vali_db tx copy =
    '(commutative, err, db') ← isCommutative accounts tx accounts;
    Ret (commutative, err, <[copy := db']> σ1).
Proof.
  intros Hdb Hcopy.
  destruct (Copy_fresh _ _ _ _ Hcopy) as (Hne & Hc & Hother).
  unfold isCommutative_at.
  rewrite Hc, (Hother vali_db) by done. by rewrite Hdb.
Qed.

Lemma isCommutative_frame_at_witness :
  ∃ commutative err σ',
    isCommutative_at (order := listed_order) two_databases 0 overspend 1
      = Ret (commutative, err, σ') ∧
    σ' !! 0 = two_databases !! 0 ∧
    ((commutative = true ∧ err = None) ∨ σ' = two_databases).
Proof.
  destruct (isCommutative_at (order := listed_order) two_databases 0 overspend 1)
    as [[[c e] σ']| | |] eqn:E; [|exfalso; vm_compute in E; discriminate..].
  exists c, e, σ'. split; [reflexivity|].
  destruct (isCommutative_frame_at (order := listed_order)
              two_databases 0 overspend 1 c e σ') as (H1 & _ & H2).
  - discriminate.
  - exact E.
  - by split.
Defined.

(** ** Transactions that are not admitted *)

(** C5, as the code has it.  Take a transaction that passes the fee check
    and whose instructions sum to zero, and whose delta map takes an account
    of the working snapshot below zero or debits an account the snapshot does
    not have; let the channel have room.  Then the turn of the loop ends in
    one of two ways, and the loop goes on with the queue that is left.
    Either the transaction is reported non-commutative and sent back to the
    channel, the snapshot unchanged: this needs a balance that would go
    negative.  Or it is reported commutative with an error and dropped, its
    fee credited to the validator account of the snapshot: this needs a
    debited account that is missing.  So a transaction with no missing
    account is sent back, and one that only debits a missing account is
    dropped. *)
Theorem deferred_or_rejected {order : RangeOrder} vdb st tx txHeap' changes :
  NextTransaction (pending st) = Ret (tx, txHeap') →
  affordable (working st) tx →
  changes_of_instructions vdb (fee_change tx) 0%Z (Instrs tx) = Ret (changes, 0%Z) →
  overdraws (working st) changes ∨ missing_debit (working st) changes →
  length (chan st) < 256 →
  (overdraws (working st) changes ∧
   isCommutative vdb tx (working st) = Ret (false, None, working st) ∧
   fill_step vdb st = Ret (requeued st tx txHeap')) ∨
  (missing_debit (working st) changes ∧
   isCommutative vdb tx (working st)
     = Ret (true, Some "operation causes balance to go negative"%string,
            working st) ∧
   fill_step vdb st = Ret (forfeited st tx txHeap')).
Proof.
  intros Hnext Haff Hch Hbad Hroom.
  pose proof (fill_step_how vdb st tx txHeap' Hnext) as Hs.
  pose proof (isCommutative_how vdb tx (working st)) as Hc.
  inversion Hs as [Hna E|msg Ha Hic E|err Ha Hic E|Ha Hic Hlen E
                   |Ha Hic Hfull E|db' Ha Hic E].
  - done.
  - rewrite Hic in Hc. inversion Hc. congruence.
  - rewrite Hic in Hc.
    inversion Hc as [|? ? Hch' Hsum|changes0 Hch' Hm| |]; subst.
    + congruence.
    + right. assert (changes0 = changes) as -> by congruence.
      by rewrite Hic.
  - rewrite Hic in Hc. inversion Hc as [| | |changes0 Hch' Ho|]; subst.
    left. assert (changes0 = changes) as -> by congruence. done.
  - lia.
  - rewrite Hic in Hc.
    inversion Hc as [| | | |changes0 ? Hch' Hnm Hno]; subst.
    assert (changes0 = changes) as -> by congruence.
    destruct Hbad; done.
Qed.

Lemma deferred_or_rejected_witness :
  fill_step (order := listed_order) ledger after_pay_bob
    = Ret (requeued after_pay_bob (set_index overspend (-1)) []).
Proof.
  destruct (deferred_or_rejected (order := listed_order) ledger after_pay_bob
              (set_index overspend (-1)) [] {[ "alice"%string := (-95)%Z ]})
    as [(_ & _ & H)|(Hm & _)].
  - vm_compute. reflexivity.
  - exists 80%Z. split; [vm_compute; reflexivity|vm_compute; discriminate].
  - vm_compute. reflexivity.
  - left. exists "alice"%string, (-95)%Z, 80%Z.
    split; [vm_compute; reflexivity|].
    split; [vm_compute; reflexivity|reflexivity].
  - vm_compute. lia.
  - exact H.
  - exfalso. destruct Hm as (account & change & Hin & Hdb & _).
    apply lookup_singleton_Some in Hin as [<- _].
    vm_compute in Hdb. discriminate Hdb.
Defined.

(** C5 as stated fails: [debit_ghost] passes the fee check, sums to zero and
    debits the account ghost, which the working snapshot does not have; it is
    not sent back to the channel but dropped, and the validator account of
    the snapshot is credited its fee. *)
Lemma missing_debit_is_not_requeued :
  changes_of_instructions ledger (fee_change debit_ghost) 0%Z (Instrs debit_ghost)
    = Ret (<["ghost"%string := (-5)%Z]> {[ "alice"%string := (-1)%Z ]}, 0%Z) ∧
  ledger !! "ghost"%string = None ∧
  fill_step (order := listed_order) ledger before_debit_ghost
    = Ret {| batch := []; working := <["validator"%string := 1%Z]> ledger;
             chan := []; pending := [] |}.
Proof. repeat split; vm_compute; reflexivity. Qed.

(** ** Where the code departs from its own comments *)

(** C4 at [borrow]: the first [minus] entry of an account is set to the
    target's balance, not to its negation. *)
Lemma minus_first_entry :
  changes_of_instructions ledger_with_carol (fee_change borrow) 0%Z (Instrs borrow)
    = Ret (<["bob"%string := 100%Z]> {[ "alice"%string := (-1)%Z ]}, 0%Z).
Proof. vm_compute. reflexivity. Qed.

(** C1 at [borrow]: the snapshot is valid, the pass admits and commits
    [borrow], and bob's balance is negative afterwards. *)
Lemma negative_after_commit :
  InitFromSnapshot (inr ledger_with_carol) = inr ledger_with_carol ∧
  balance_after
    (ProcessTransactions_default (order := listed_order)
       (validator_of ledger_with_carol [borrow])) "bob"
    = Ret (Some (-50)%Z).
Proof. split; vm_compute; reflexivity. Qed.

(** C2 at [credit_bob; mirror_bob]: the pass admits the two in this order;
    committed in this order carol ends with 60, in the other order with 50. *)
Lemma commit_order_matters :
  (st ← build_batch (order := listed_order)
          (validator_of ledger_with_dave [mirror_bob; credit_bob]);
   Ret (batch st))
    = Ret [set_index credit_bob (-1); set_index mirror_bob (-1)] ∧
  (db' ← commit_transactions ledger_with_dave [credit_bob; mirror_bob];
   Ret (db' !! "carol"%string)) = Ret (Some 60%Z) ∧
  (db' ← commit_transactions ledger_with_dave [mirror_bob; credit_bob];
   Ret (db' !! "carol"%string)) = Ret (Some 50%Z).
Proof. repeat split; vm_compute; reflexivity. Qed.

(** C6 at [pay_bob; unbalanced]: the pass admits [pay_bob] (fee 10) and
    forfeits the fee of [unbalanced] (7) on the copy only; after the commit
    the validator account of the ledger has grown by 10, not by 17. *)
Lemma forfeited_fee_is_lost :
  (st ← build_batch (order := listed_order)
          (validator_of ledger [unbalanced; pay_bob]);
   Ret (batch st, working st !! "validator"%string, pending st, chan st))
    = Ret ([set_index pay_bob (-1)], Some 7%Z, [], []) ∧
  ledger !! "validator"%string = Some 0%Z ∧
  balance_after
    (ProcessTransactions_default (order := listed_order)
       (validator_of ledger [unbalanced; pay_bob])) "validator"
    = Ret (Some 10%Z).
Proof. repeat split; vm_compute; reflexivity. Qed.


(** ** What the commit adds to the simulation *)

Lemma balance_insert (db : gmap string Z) account amount a :
  balance (<[account := amount]> db) a
  = if decide (a = account) then amount else balance db a.
Proof.
  unfold balance, GetBalance. case_decide as E.
  - subst. by rewrite lookup_insert_eq.
  - by rewrite lookup_insert_ne.
Qed.

Lemma entry_insert (changes : gmap string Z) account change a :
  entry (<[account := change]> changes) a
  = if decide (a = account) then change else entry changes a.
Proof.
  unfold entry. case_decide as E.
  - subst. by rewrite lookup_insert_eq.
  - by rewrite lookup_insert_ne.
Qed.

Lemma balance_Earn db amount a :
  a ≠ "validator"%string → balance (Earn db amount) a = balance db a.
Proof.
  intros Ha. unfold Earn. destruct (GetBalance db "validator") as [b e].
  rewrite balance_insert. by rewrite decide_False.
Qed.

Lemma whole_unfold change : whole change = change.
Proof. reflexivity. Qed.

Lemma debit_part_unfold change : debit_part change = Z.min 0 change.
Proof. reflexivity. Qed.

Lemma credit_part_unfold change : credit_part change = Z.max 0 change.
Proof. reflexivity. Qed.

Lemma sum_on_split account instrs :
  sum_on account whole instrs
  = (sum_on account debit_part instrs + sum_on account credit_part instrs)%Z.
Proof.
  induction instrs as [|instr instrs IH]; [done|].
  cbn [sum_on]. rewrite IH. case_decide; [|done].
  rewrite whole_unfold, debit_part_unfold, credit_part_unfold. lia.
Qed.

Lemma sum_on_min_nonpos account instrs :
  (sum_on account debit_part instrs ≤ 0)%Z.
Proof.
  induction instrs as [|instr instrs IH]; [done|].
  cbn [sum_on]. case_decide; [|done]. rewrite debit_part_unfold. lia.
Qed.

Lemma credits_app account b1 b2 :
  credits account (b1 ++ b2) = (credits account b1 + credits account b2)%Z.
Proof. induction b1 as [|tx b1 IH]; cbn [credits app]; lia. Qed.

(** The delta map of a transaction of absolute changes: every entry is
    what was there plus the changes that are not positive. *)
Lemma changes_of_absolute vdb changes sum instrs :
  Forall (λ instr, IsChangeFloat64 instr = true) instrs →
  ∃ changes' sum',
    changes_of_instructions vdb changes sum instrs = Ret (changes', sum') ∧
    ∀ a, entry changes' a = (entry changes a + sum_on a debit_part instrs)%Z.
Proof.
  intros Hall. revert changes sum.
  induction Hall as [|instr instrs Hf _ IH]; intros changes sum.
  { exists changes, sum. split; [done|]. intros a. cbn. lia. }
  cbn [changes_of_instructions]. unfold change_of_instruction.
  unfold IsChangeFloat64 in Hf.
  destruct (Change instr) as [change| |] eqn:Hchange; [|done..].
  destruct (Z.gtb_spec change 0) as [G|G].
  - cbn. destruct (IH changes (sum + change)%Z) as (c' & s' & -> & Hc').
    exists c', s'. split; [done|]. intros a. rewrite Hc'. cbn [sum_on].
    unfold float_change. rewrite Hchange.
    case_decide; [|done]. rewrite debit_part_unfold. lia.
  - set (changes1 := match changes !! Account instr with
                     | Some oldChange =>
                         <[Account instr := (oldChange + change)%Z]> changes
                     | None => <[Account instr := change]> changes
                     end).
    assert (∀ a, entry changes1 a
                 = if decide (a = Account instr)
                   then (entry changes a + change)%Z else entry changes a) as H1.
    { intros a. subst changes1. unfold entry at 2 3.
      destruct (changes !! Account instr) as [old|] eqn:Hold;
        rewrite entry_insert; case_decide; subst; rewrite ?Hold; done. }
    assert (match changes !! Account instr with
            | Some oldChange =>
                Ret (<[Account instr := (oldChange + change)%Z]> changes,
                     (sum + change)%Z)
            | None => Ret (<[Account instr := change]> changes, (sum + change)%Z)
            end = Ret (changes1, (sum + change)%Z)) as ->.
    { subst changes1. by destruct (changes !! Account instr). }
    cbn. destruct (IH changes1 (sum + change)%Z) as (c' & s' & -> & Hc').
    exists c', s'. split; [done|]. intros a. rewrite Hc', H1. cbn [sum_on].
    unfold float_change. rewrite Hchange.
    destruct (decide (a = Account instr)) as [->|Hne].
    + rewrite decide_True by done. rewrite debit_part_unfold. lia.
    + rewrite decide_False by done. lia.
Qed.

Lemma commit_absolute db instrs :
  Forall (λ instr, IsChangeFloat64 instr = true) instrs →
  ∃ db', commit_instructions db instrs = Ret db' ∧
         ∀ a, balance db' a = (balance db a + sum_on a whole instrs)%Z.
Proof.
  intros Hall. revert db.
  induction Hall as [|instr instrs Hf _ IH]; intros db.
  { exists db. split; [done|]. intros a. cbn. lia. }
  cbn [commit_instructions]. unfold commit_instruction.
  unfold IsChangeFloat64 in Hf.
  destruct (Change instr) as [change| |] eqn:Hchange; [|done..].
  destruct (GetBalance db (Account instr)) as [b e] eqn:Hb. cbn.
  destruct (IH (<[Account instr := (b + change)%Z]> db)) as (db' & -> & Hdb').
  exists db'. split; [done|]. intros a. rewrite Hdb', balance_insert.
  cbn [sum_on]. unfold float_change. rewrite Hchange.
  destruct (decide (a = Account instr)) as [->|Hne].
  - rewrite decide_True by done. rewrite whole_unfold.
    assert (balance db (Account instr) = b) as -> by (unfold balance; by rewrite Hb).
    lia.
  - rewrite decide_False by done. lia.
Qed.

Lemma commit_transaction_effect db tx :
  absolute_only tx →
  ∃ db', commit_transaction db tx = Ret db' ∧
    ∀ a, balance db' a
         = (balance db a + fee_effect tx a + sum_on a whole (Instrs tx))%Z.
Proof.
  intros Habs. unfold commit_transaction.
  destruct (GetBalance db (Payer (Fee tx))) as [b e] eqn:Hb.
  destruct (commit_absolute
              (<[Payer (Fee tx) := (b - Amount (Fee tx))%Z]>
                 (Earn db (Amount (Fee tx)))) _ Habs) as (db' & -> & Hdb').
  exists db'. split; [done|]. intros a.
  rewrite Hdb', balance_insert. unfold fee_effect.
  destruct (decide (a = Payer (Fee tx))) as [->|Hne].
  { assert (balance db (Payer (Fee tx)) = b) as ->
      by (unfold balance; by rewrite Hb).
    lia. }
  destruct (decide (a = "validator"%string)) as [->|Hv].
  - unfold Earn. destruct (GetBalance db "validator") as [bv ev] eqn:Hbv.
    rewrite balance_insert, decide_True by done.
    assert (balance db "validator" = bv) as ->
      by (unfold balance; by rewrite Hbv).
    lia.
  - rewrite balance_Earn by done. lia.
Qed.

Lemma fee_effect_entry tx a :
  a ≠ "validator"%string → fee_effect tx a = entry (fee_change tx) a.
Proof.
  intros Ha. unfold fee_effect, fee_change, entry.
  destruct (decide (a = Payer (Fee tx))) as [->|Hne].
  - by rewrite lookup_singleton_eq.
  - rewrite lookup_singleton_ne by done. by rewrite decide_False.
Qed.

Lemma commit_transaction_absolute db tx :
  absolute_only tx →
  ∃ db', commit_transaction db tx = Ret db' ∧
    ∀ a, a ≠ "validator"%string →
      balance db' a
      = (balance db a + entry (fee_change tx) a + sum_on a whole (Instrs tx))%Z.
Proof.
  intros Habs.
  destruct (commit_transaction_effect db tx Habs) as (db' & Hc & Hbal).
  exists db'. split; [done|]. intros a Ha.
  by rewrite Hbal, fee_effect_entry.
Qed.

Lemma commit_transactions_app db b1 b2 :
  commit_transactions db (b1 ++ b2)
  = db' ← commit_transactions db b1; commit_transactions db' b2.
Proof.
  revert db. induction b1 as [|tx b1 IH]; intros db; [done|].
  cbn [commit_transactions app].
  destruct (commit_transaction db tx); cbn; [apply IH|done..].
Qed.

Lemma commit_transactions_effect db batch :
  Forall absolute_only batch →
  ∃ db', commit_transactions db batch = Ret db' ∧
    ∀ a, balance db' a = (balance db a + commit_effect a batch)%Z.
Proof.
  intros Hall. revert db.
  induction Hall as [|tx batch Htx _ IH]; intros db.
  { exists db. split; [done|]. intros a. cbn. lia. }
  cbn [commit_transactions].
  destruct (commit_transaction_effect db tx Htx) as (db1 & -> & H1).
  destruct (IH db1) as (db' & Hc & Hbal).
  exists db'. split; [done|]. intros a. rewrite Hbal, H1.
  cbn [commit_effect]. lia.
Qed.

Lemma commit_effect_Permutation a b1 b2 :
  b1 ≡ₚ b2 → commit_effect a b1 = commit_effect a b2.
Proof.
  induction 1 as [|tx b1 b2 _ IH|tx1 tx2 b|b1 b2 b3 _ IH1 _ IH2];
    cbn [commit_effect]; lia.
Qed.

(** Where C2 does hold: a batch of absolute changes commits, in any order,
    to the same balance on every account. *)
Lemma commit_absolute_any_order db b1 b2 :
  Forall absolute_only b1 → b1 ≡ₚ b2 →
  ∃ db1 db2,
    commit_transactions db b1 = Ret db1 ∧
    commit_transactions db b2 = Ret db2 ∧
    ∀ a, balance db1 a = balance db2 a.
Proof.
  intros Hall Hperm.
  assert (Forall absolute_only b2) as Hall2 by (by rewrite <-Hperm).
  destruct (commit_transactions_effect db b1 Hall) as (db1 & Hc1 & H1).
  destruct (commit_transactions_effect db b2 Hall2) as (db2 & Hc2 & H2).
  exists db1, db2. repeat split; [done..|].
  intros a. by rewrite H1, H2, (commit_effect_Permutation a b1 b2).
Qed.

Lemma sum_on_unnamed a part instrs :
  Forall (λ instr, Account instr ≠ a) instrs → sum_on a part instrs = 0%Z.
Proof.
  induction 1 as [|instr instrs Hne _ IH]; cbn [sum_on]; [done|].
  by rewrite decide_False.
Qed.

(** Where C6 does hold: committing a batch of absolute changes that leave
    the validator account alone credits it the fees of the batch, exactly. *)
Lemma commit_credits_fees db batch :
  Forall absolute_only batch → Forall beside_validator batch →
  ∃ db', commit_transactions db batch = Ret db' ∧
    balance db' "validator" = (balance db "validator" + fees batch)%Z.
Proof.
  intros Hall Hbeside.
  destruct (commit_transactions_effect db batch Hall) as (db' & Hc & Hbal).
  exists db'. split; [done|]. rewrite Hbal. f_equal.
  clear Hall Hc Hbal.
  induction Hbeside as [|tx batch [Hp Hi] _ IH]; cbn [commit_effect fees]; [done|].
  rewrite IH, (sum_on_unnamed _ _ _ Hi). unfold fee_effect.
  rewrite decide_False by done. rewrite decide_True by done. lia.
Qed.

Lemma apply_changes_balance db entries a :
  NoDup entries.*1 →
  balance (apply_changes db entries) a
  = (balance db a + entry (list_to_map entries) a)%Z.
Proof.
  revert db. induction entries as [|[account change] entries IH]; intros db Hnd.
  { cbn. unfold entry. rewrite lookup_empty. cbn. lia. }
  cbn [apply_changes]. cbn in Hnd. apply NoDup_cons in Hnd as [Hnotin Hnd].
  destruct (GetBalance db account) as [b e] eqn:Hb.
  rewrite IH by done. rewrite balance_insert. cbn [list_to_map foldr].
  rewrite entry_insert.
  destruct (decide (a = account)) as [->|Hne].
  - assert (balance db account = b) as -> by (unfold balance; by rewrite Hb).
    unfold entry. rewrite (not_elem_of_list_to_map_1 _ _ Hnotin). cbn.
    rewrite decide_True by done. lia.
  - rewrite decide_False by done. lia.
Qed.

Section commit_facts.
Context {order : RangeOrder}.

Lemma list_to_map_range (changes : gmap string Z) :
  list_to_map (range changes) = changes.
Proof.
  rewrite (list_to_map_proper (range changes) (map_to_list changes)).
  - apply list_to_map_to_list.
  - apply NoDup_range.
  - apply range_perm.
Qed.

(** What an admitted transaction of absolute changes does to the copy. *)
Lemma admitted_absolute vdb tx db db' :
  affordable db tx →
  isCommutative vdb tx db = Ret (true, None, db') →
  absolute_only tx →
  ∀ a, balance db' a
       = (balance db a + entry (fee_change tx) a
          + sum_on a debit_part (Instrs tx))%Z.
Proof.
  intros (bp & Hpayer & _) Hic Habs a.
  pose proof (isCommutative_how vdb tx db) as Hc. rewrite Hic in Hc.
  inversion Hc as [| | | |changes changes' Hch Hnm Hno Ht E]; subst.
  destruct (changes_of_absolute vdb (fee_change tx) 0%Z _ Habs)
    as (c0 & s0 & Hch0 & Hentry).
  assert (c0 = changes) as -> by congruence.
  rewrite apply_changes_balance by apply NoDup_range.
  rewrite list_to_map_range. rewrite <-Z.add_assoc, <-Hentry. f_equal.
  apply test_changes_inr in Ht as [_ Hpruned].
  unfold entry at 1. rewrite Hpruned. case_bool_decide as Hm.
  2: { done. }
  destruct Hm as [Hin Hdb]. cbn.
  destruct (changes !! a) as [c|] eqn:Hca.
  2: { unfold entry. by rewrite Hca. }
  assert (0 ≤ c)%Z.
  { destruct (Z.lt_ge_cases c 0); [|lia]. exfalso. apply Hnm. by exists a, c. }
  assert (a ≠ Payer (Fee tx)) as Hne by congruence.
  specialize (Hentry a). unfold entry at 1 in Hentry. rewrite Hca in Hentry.
  cbn in Hentry. unfold fee_change, entry in Hentry.
  rewrite lookup_singleton_ne in Hentry by done. cbn in Hentry.
  pose proof (sum_on_min_nonpos a (Instrs tx)).
  unfold entry. rewrite Hca. cbn. lia.
Qed.

Lemma fill_step_commit_adds_credits vdb st st' tx txHeap' :
  NextTransaction (pending st) = Ret (tx, txHeap') →
  fill_step vdb st = Ret st' →
  (Forall absolute_only (batch st) → commit_adds_credits vdb st) →
  Forall absolute_only (batch st') → commit_adds_credits vdb st'.
Proof.
  intros Hnext Hstep Hinv Habs.
  pose proof (fill_step_how vdb st tx txHeap' Hnext) as Hs.
  rewrite Hstep in Hs.
  inversion Hs as [Hna E|msg Ha Hic E|err Ha Hic E|Ha Hic Hlen E
                   |Ha Hic Hfull E|db' Ha Hic E]; subst; cbn in Habs.
  - by apply Hinv.
  - destruct (Hinv Habs) as (db' & Hcommit & Hbal).
    exists db'. split; [done|]. intros a Ha'. cbn.
    rewrite balance_Earn by done. by apply Hbal.
  - by apply Hinv.
  - apply Forall_app in Habs as [Habs Htx].
    apply List.Forall_inv in Htx.
    destruct (Hinv Habs) as (db1 & Hcommit & Hbal).
    destruct (commit_transaction_absolute db1 tx Htx) as (db2 & Hc2 & Hbal2).
    exists db2. cbn. split.
    { rewrite commit_transactions_app, Hcommit. cbn. by rewrite Hc2. }
    intros a Ha'. rewrite Hbal2, Hbal by done.
    rewrite (admitted_absolute vdb tx (working st) db' Ha Hic Htx a).
    rewrite credits_app, sum_on_split. cbn [credits]. lia.
Qed.

Lemma fill_batch_commit_adds_credits fuel vdb st st' :
  fill_batch fuel vdb st = Ret st' →
  (Forall absolute_only (batch st) → commit_adds_credits vdb st) →
  Forall absolute_only (batch st') → commit_adds_credits vdb st'.
Proof.
  revert st. induction fuel as [|fuel IH]; intros st; cbn [fill_batch].
  - destruct (_ && _); [done|]. by intros [= ->].
  - destruct (_ <? 100); cbn [andb]; [|by intros [= ->]].
    destruct (0 <? length (pending st)) eqn:Hq; [|by intros [= ->]].
    destruct (NextTransaction_some _ (filling_nonempty _ Hq))
      as (tx & h' & Hnext & _).
    destruct (fill_step vdb st) as [st1| | |] eqn:Hstep; [|done..].
    cbn. intros Hrest Hinv. apply (IH _ Hrest).
    by eapply fill_step_commit_adds_credits.
Qed.

(** The simulation never takes an account below zero. *)
Lemma admitted_nonnegative vdb tx db db' a :
  isCommutative vdb tx db = Ret (true, None, db') →
  (0 ≤ balance db a)%Z → (0 ≤ balance db' a)%Z.
Proof.
  intros Hic Hpos.
  pose proof (isCommutative_how vdb tx db) as Hc. rewrite Hic in Hc.
  inversion Hc as [| | | |changes changes' Hch Hnm Hno Ht E]; subst.
  rewrite apply_changes_balance by apply NoDup_range.
  rewrite list_to_map_range.
  apply test_changes_inr in Ht as [Hok Hpruned].
  unfold entry. rewrite Hpruned. case_bool_decide as Hm; cbn; [lia|].
  destruct (changes !! a) as [c|] eqn:Hca; cbn; [|lia].
  specialize (Hok a c (proj2 (elem_of_range _ _ _) Hca)).
  unfold balance, GetBalance in *.
  destruct (db !! a) as [b|] eqn:Hdb; cbn in *; [lia|].
  exfalso. apply Hm. split; [|done].
  apply list_elem_of_fmap. exists (a, c). split; [done|].
  by apply elem_of_range.
Qed.

Lemma fill_batch_nonnegative fuel vdb st st' a :
  a ≠ "validator"%string →
  fill_batch fuel vdb st = Ret st' →
  (0 ≤ balance (working st) a)%Z → (0 ≤ balance (working st') a)%Z.
Proof.
  intros Ha. revert st. induction fuel as [|fuel IH]; intros st; cbn [fill_batch].
  - destruct (_ && _); [done|]. by intros [= ->].
  - destruct (_ <? 100); cbn [andb]; [|by intros [= ->]].
    destruct (0 <? length (pending st)) eqn:Hq; [|by intros [= ->]].
    destruct (NextTransaction_some _ (filling_nonempty _ Hq))
      as (tx & h' & Hnext & _).
    pose proof (fill_step_how vdb st tx h' Hnext) as Hs.
    destruct (fill_step vdb st) as [st1| | |] eqn:Hstep; [|done..].
    cbn. intros Hrest Hpos. apply (IH _ Hrest).
    inversion Hs as [Hna E|msg Haff Hic E|err Haff Hic E|Haff Hic Hlen E
                     |Haff Hic Hfull E|db' Haff Hic E]; subst; cbn; try done.
    + by rewrite balance_Earn.
    + by eapply admitted_nonnegative.
Qed.

Lemma credits_nonnegative a batch : (0 ≤ credits a batch)%Z.
Proof.
  induction batch as [|tx batch IH]; cbn [credits]; [done|].
  assert (0 ≤ sum_on a credit_part (Instrs tx))%Z; [|lia].
  induction (Instrs tx) as [|instr instrs IHi]; cbn [sum_on]; [done|].
  case_decide; [|done]. rewrite credit_part_unfold. lia.
Qed.

End commit_facts.

Lemma build_batch_commit_adds_credits {order : RangeOrder} vali st :
  build_batch vali = Ret st →
  Forall absolute_only (batch st) →
  commit_adds_credits (db vali) st.
Proof.
  intros Hb. apply (fill_batch_commit_adds_credits _ _ _ _ Hb).
  intros _. exists (db vali). split; [done|]. intros a _. cbn. lia.
Qed.


(** Where C1 does hold: from a ledger without negative balances, a batch
    of absolute changes commits to a ledger where no account other than
    the validator's is negative. *)
Lemma absolute_batch_nonnegative {order : RangeOrder} vali st :
  build_batch vali = Ret st →
  Forall absolute_only (batch st) →
  (∀ account, 0 ≤ balance (db vali) account)%Z →
  ∃ db', commit_transactions (db vali) (batch st) = Ret db' ∧
    ∀ account, account ≠ "validator"%string → (0 ≤ balance db' account)%Z.
Proof.
  intros Hb Habs Hpos.
  destruct (build_batch_commit_adds_credits vali st Hb Habs)
    as (db' & Hc & Hbal).
  exists db'. split; [done|]. intros a Ha. rewrite Hbal by done.
  pose proof (fill_batch_nonnegative _ _ _ _ a Ha Hb (Hpos a)).
  pose proof (credits_nonnegative a (batch st)). lia.
Qed.


(** * Further properties of the code *)

(** ** accountsdb *)

(** X1. [UpdateBy] changes no account but the one it is given, never
    leaves a negative balance in a database that had none, and leaves the
    database as it was when it returns an error. *)
Theorem UpdateBy_keeps_nonnegative (db : gmap string Z) account amount err db' :
  UpdateBy db account amount = (err, db') →
  (∀ a b, db !! a = Some b → (0 ≤ b)%Z) →
  (∀ a b, db' !! a = Some b → (0 ≤ b)%Z) ∧
  (∀ a, a ≠ account → db' !! a = db !! a) ∧
  (err = None ∨ db' = db).
Proof.
  unfold UpdateBy, GetBalance. intros H Hpos.
  destruct (db !! account) as [balance|] eqn:Hdb.
  - destruct (Z.ltb_spec (balance + amount) 0) as [L|L];
      injection H as <- <-.
    { split; [done|]. split; [done|]. by right. }
    split; [|split; [|by left]].
    + intros a b. destruct (decide (a = account)) as [->|Hne].
      * rewrite lookup_insert_eq. intros [= <-]. done.
      * rewrite lookup_insert_ne by done. apply Hpos.
    + intros a Hne. by rewrite lookup_insert_ne.
  - injection H as <- <-.
    split; [|split; [|by left]].
    + intros a b. destruct (decide (a = account)) as [->|Hne].
      * rewrite lookup_insert_eq. intros [= <-].
        destruct (Z.gtb_spec amount 0); lia.
      * rewrite lookup_insert_ne by done. apply Hpos.
    + intros a Hne. by rewrite lookup_insert_ne.
Qed.

Lemma ledger_nonnegative a b : ledger !! a = Some b → (0 ≤ b)%Z.
Proof.
  assert (map_Forall (λ _ b, 0 ≤ b)%Z ledger) as H
    by (apply (bool_decide_unpack _); vm_compute; exact I).
  apply H.
Qed.

Lemma UpdateBy_keeps_nonnegative_witness :
  ∃ db', UpdateBy ledger "bob" (-20) = (None, db') ∧
         db' !! "bob"%string = Some 30%Z ∧
         (∀ a b, db' !! a = Some b → (0 ≤ b)%Z).
Proof.
  destruct (UpdateBy ledger "bob" (-20)) as [err db'] eqn:E.
  destruct (UpdateBy_keeps_nonnegative ledger "bob" (-20)%Z err db' E
              ledger_nonnegative) as (Hpos & _ & _).
  exists db'. vm_compute in E. injection E as <- <-.
  split; [reflexivity|]. split; [reflexivity|exact Hpos].
Defined.






(** X5. [InitFromSnapshot] rejects a decoded map that has a negative
    balance, whatever else it holds. *)
Theorem InitFromSnapshot_rejects (accounts : gmap string Z) a b :
  accounts !! a = Some b → (b < 0)%Z →
  InitFromSnapshot (inr accounts)
    = inl "invalid balance data in accounts snapshot"%string.
Proof.
  intros Hab Hneg. unfold InitFromSnapshot.
  destruct (forallb _ _) eqn:Hall; [|done].
  exfalso. rewrite forallb_forall in Hall.
  specialize (Hall (a, b)). cbn in Hall.
  rewrite (proj2 (Z.ltb_lt b 0) Hneg) in Hall.
  discriminate Hall. by apply list_elem_of_In, elem_of_map_to_list.
Qed.

Lemma InitFromSnapshot_rejects_witness :
  InitFromSnapshot (inr (<["bob"%string := (-1)%Z]> ledger))
    = inl "invalid balance data in accounts snapshot"%string.
Proof.
  apply (InitFromSnapshot_rejects _ "bob"%string (-1)%Z).
  - reflexivity.
  - reflexivity.
Defined.

(** X6. A validator made by [NewFromSnapshot] starts with a ledger that
    has no negative balance and has a validator account, with nothing
    queued, nothing in the channel, and the batch counter at 0. *)
Theorem NewFromSnapshot_starts decoded vali :
  NewFromSnapshot decoded = inr vali →
  (∀ a b, db vali !! a = Some b → (0 ≤ b)%Z) ∧
  is_Some (db vali !! "validator"%string) ∧
  txHeap vali = [] ∧ txCh vali = [] ∧ batchIdx vali = 0%Z.
Proof.
  unfold NewFromSnapshot.
  destruct decoded as [err|accounts]; [done|].
  destruct (InitFromSnapshot (inr accounts)) as [err|db0] eqn:Hinit; [done|].
  intros [= <-]. cbn. split; [|split; [|done]].
  - intros a b Hab. unfold InitFromSnapshot in Hinit.
    destruct (forallb _ _) eqn:Hall; [|done].
    rewrite forallb_forall in Hall.
    assert (∀ a b, accounts !! a = Some b → (0 ≤ b)%Z) as Hpos.
    { intros a' b' Hin. specialize (Hall (a', b')). cbn in Hall.
      destruct (Z.ltb_spec b' 0); [|done].
      discriminate Hall. by apply list_elem_of_In, elem_of_map_to_list. }
    destruct (accounts !! "validator"%string) eqn:Hv;
      injection Hinit as <-; [by eapply Hpos|].
    destruct (decide (a = "validator"%string)) as [->|Hne].
    + rewrite lookup_insert_eq in Hab. by injection Hab as <-.
    + rewrite lookup_insert_ne in Hab by done. by eapply Hpos.
  - unfold InitFromSnapshot in Hinit.
    destruct (forallb _ _); [|done].
    destruct (accounts !! "validator"%string) eqn:Hv;
      injection Hinit as <-; [by rewrite Hv|by rewrite lookup_insert_eq].
Qed.

Lemma NewFromSnapshot_starts_witness :
  ∃ vali, NewFromSnapshot (inr ledger) = inr vali ∧
          is_Some (db vali !! "validator"%string) ∧ txHeap vali = [].
Proof.
  destruct (NewFromSnapshot (inr ledger)) as [err|vali] eqn:E;
    [exfalso; vm_compute in E; discriminate E|].
  exists vali. split; [reflexivity|].
  destruct (NewFromSnapshot_starts _ _ E) as (_ & Hv & Hh & _).
  by split.
Defined.

(** X7. What [Copy] returns is a database of its own: it holds what the
    original holds, and no write to it changes the original or any other
    database. *)
Theorem Copy_is_independent (σ : gmap nat (gmap string Z)) db copy σ1 written :
  Copy σ db = Ret (copy, σ1) →
  σ1 !! copy = σ !! db ∧
  ∀ p, is_Some (σ !! p) → (<[copy := written]> σ1) !! p = σ !! p.
Proof.
  intros Hcopy. unfold Copy in Hcopy.
  destruct (σ !! db) as [accounts|] eqn:Hdb; [|done].
  injection Hcopy as <- <-.
  split; [by rewrite lookup_insert_eq|].
  intros p Hp. pose proof (is_fresh (dom σ)) as Hfresh.
  assert (p ≠ fresh (dom σ)) as Hne.
  { intros ->. by apply Hfresh, elem_of_dom. }
  by rewrite !lookup_insert_ne.
Qed.

Lemma Copy_is_independent_witness :
  ∃ copy σ1, Copy {[0 := ledger]} 0 = Ret (copy, σ1) ∧
    σ1 !! copy = Some ledger ∧
    (<[copy := ∅]> σ1) !! 0 = Some ledger.
Proof.
  destruct (Copy {[0 := ledger]} 0) as [[copy σ1]| | |] eqn:E;
    [|exfalso; vm_compute in E; discriminate E..].
  exists copy, σ1. split; [reflexivity|].
  destruct (Copy_is_independent _ _ _ _ ∅ E) as [H1 H2].
  split; [exact H1|]. apply H2. by eexists.
Defined.

(** ** The score *)



(** ** The queue *)

Lemma Swap_indexed h i j :
  i < length h → j < length h → indexed h → indexed (Swap h i j).
Proof.
  intros Hi Hj Hh k tx Hk.
  pose proof (lookup_lt_Some _ _ _ Hk) as Hlt. rewrite Swap_length in Hlt.
  apply list_lookup_total_correct in Hk. subst tx.
  rewrite lookup_total_Swap by done.
  repeat case_decide; subst; try done.
  apply Hh. by apply list_lookup_lookup_total_lt.
Qed.

Lemma up_loop_indexed fuel h j :
  j < length h → indexed h → indexed (heap.up_loop fuel h j).
Proof.
  revert h j. induction fuel as [|fuel IH]; intros h j Hj Hh; [done|].
  rewrite up_loop_S. cbv zeta. destruct (_ || _); [done|].
  pose proof (parent_spec j).
  apply IH; [rewrite Swap_length; lia|].
  apply Swap_indexed; [lia|done..].
Qed.

Lemma down_loop_indexed fuel h i n :
  n ≤ length h → indexed h → indexed (heap.down_loop fuel h i n).
Proof.
  revert h i. induction fuel as [|fuel IH]; intros h i Hn Hh; [done|].
  rewrite down_loop_S. cbv zeta.
  destruct (Nat.leb_spec n (2 * i + 1)) as [L|L]; [done|].
  fold (larger_child h i n).
  destruct (larger_child_cases h i n L) as (_ & Hj & _).
  destruct (negb _); [done|].
  apply IH; [by rewrite Swap_length|].
  apply Swap_indexed; [lia|lia|done].
Qed.

(** X9. The index a queued transaction carries is the slot it sits in:
    [PushTransaction] and [NextTransaction] keep that true of the whole
    queue, and the transaction [NextTransaction] returns carries -1. *)
Theorem queue_keeps_indices h tx :
  indexed h →
  indexed (PushTransaction h tx) ∧
  match NextTransaction h with
  | Ret (next, h') => index next = (-1)%Z ∧ indexed h'
  | Panic _ => h = []
  | Blocked | OutOfFuel => False
  end.
Proof.
  intros Hh. split.
  - rewrite PushTransaction_unfold.
    apply up_loop_indexed; [unfold Push; rewrite length_app; cbn; lia|].
    intros i t. unfold Push.
    destruct (decide (i < length h)) as [Hlt|Hge].
    + rewrite lookup_app_l by done. apply Hh.
    + rewrite lookup_app_r by lia.
      destruct (i - length h) as [|d] eqn:Hd; [|by destruct d].
      cbn. intros [= <-]. cbn. lia.
  - destruct (decide (h = [])) as [->|Hne]; [done|].
    rewrite NextTransaction_unfold.
    assert (0 < length h) as Hlen by (destruct h; [done|cbn; lia]).
    rewrite (proj2 (Nat.eqb_neq _ _)) by lia. cbv zeta.
    set (n := length h - 1).
    set (h2 := heap.down_loop n (Swap h 0 n) 0 n).
    assert (length h2 = S n) as Hl2
      by (subst h2; rewrite down_loop_length; rewrite Swap_length; lia).
    assert (indexed h2) as Hi2.
    { subst h2. apply down_loop_indexed; [rewrite Swap_length; lia|].
      apply Swap_indexed; [lia|lia|done]. }
    unfold Pop. rewrite last_lookup, Hl2. cbn [pred].
    destruct (h2 !! n) as [item|] eqn:Hitem.
    2: { apply lookup_ge_None in Hitem. lia. }
    split; [done|].
    intros i t Hit. apply lookup_take_Some in Hit as [Hit _]. by apply Hi2.
Qed.

Lemma queue_keeps_indices_witness :
  indexed three_queued ∧
  ∃ next h', NextTransaction three_queued = Ret (next, h') ∧
             index next = (-1)%Z ∧ indexed h'.
Proof.
  assert (indexed three_queued) as Hh.
  { unfold three_queued.
    do 3 (refine (proj1 (queue_keeps_indices _ _ _))).
    intros i t Hit. destruct i; discriminate Hit. }
  split; [exact Hh|].
  pose proof (queue_keeps_indices three_queued inhabitant Hh) as H.
  destruct (NextTransaction three_queued) as [[next h']|msg| |] eqn:E.
  - exists next, h'. split; [reflexivity|exact (proj2 H)].
  - exfalso. vm_compute in E. discriminate E.
  - destruct (proj2 H).
  - destruct (proj2 H).
Defined.

(** X10. [PushTransaction] keeps the queue in heap shape and adds the
    transaction to it, and nothing else: the queue is one longer and holds
    what it held and the new transaction. *)
Theorem PushTransaction_adds h tx :
  heapOrdered h →
  heapOrdered (PushTransaction h tx) ∧
  length (PushTransaction h tx) = S (length h) ∧
  payload <$> PushTransaction h tx ≡ₚ payload tx :: (payload <$> h).
Proof.
  intros Hh. split; [by apply PushTransaction_heapOrdered|].
  split; [apply PushTransaction_length|apply PushTransaction_payload].
Qed.

Lemma PushTransaction_adds_witness :
  heapOrdered (PushTransaction three_queued pay_bob) ∧
  length (PushTransaction three_queued pay_bob) = 4.
Proof.
  destruct (PushTransaction_adds three_queued pay_bob) as (H1 & H2 & _).
  - unfold three_queued.
    repeat apply PushTransaction_heapOrdered. apply heapOrdered_nil.
  - split; [exact H1|]. rewrite H2. vm_compute. reflexivity.
Defined.

(** X11. A transaction pushed on a queue (in heap shape) of transactions
    of lower scores is the next one extracted, and the queue is then what
    it was before the push. *)
Theorem push_then_next h tx :
  heapOrdered h →
  (∀ t, t ∈ h → (prio t < prio tx)%Z) →
  ∃ next h',
    NextTransaction (PushTransaction h tx) = Ret (next, h') ∧
    payload next = payload tx ∧
    payload <$> h' ≡ₚ payload <$> h ∧
    heapOrdered h'.
Proof.
  intros Hh Hlow.
  set (h1 := PushTransaction h tx).
  assert (h1 ≠ []) as Hne.
  { intros E. pose proof (PushTransaction_length h tx) as Hl.
    fold h1 in Hl. rewrite E in Hl. done. }
  assert (heapOrdered h1) as Hh1 by (by apply PushTransaction_heapOrdered).
  destruct (NextTransaction_Ret h1 Hne) as (next & h' & Hnext & Hroot & _ & Hperm & Hh').
  exists next, h'. split; [done|].
  assert (payload <$> h1 ≡ₚ payload tx :: (payload <$> h)) as Hp1
    by apply PushTransaction_payload.
  assert (∀ t, t ∈ h1 → (prio t ≤ prio next)%Z) as Hmax.
  { intros t [k Hk]%list_elem_of_lookup.
    pose proof (lookup_lt_Some _ _ _ Hk) as Hlt.
    rewrite <-(list_lookup_total_correct _ _ _ Hk). subst next. cbn.
    by apply heapOrdered_root. }
  assert (payload next = payload tx) as Heq.
  { assert (payload next ∈ payload tx :: (payload <$> h)) as Hin.
    { rewrite <-Hp1, Hperm. left. }
    apply elem_of_cons in Hin as [?|Hin]; [done|]. exfalso.
    apply list_elem_of_fmap in Hin as (t & Ht & Hth).
    assert (payload tx ∈ payload <$> h1) as Htx by (rewrite Hp1; left).
    apply list_elem_of_fmap in Htx as (t1 & Ht1 & Hth1).
    specialize (Hmax t1 Hth1). specialize (Hlow t Hth).
    assert (prio t = prio next) by (by injection Ht).
    assert (prio t1 = prio tx) by (by injection Ht1).
    lia. }
  split; [done|]. split; [|by apply Hh'].
  apply (Permutation_cons_inv (a := payload tx)).
  rewrite <-Hp1, Hperm. by rewrite Heq.
Qed.

Lemma push_then_next_witness :
  ∃ next h',
    NextTransaction (PushTransaction three_queued urgent) = Ret (next, h') ∧
    payload next = payload urgent.
Proof.
  destruct (push_then_next three_queued urgent) as (next & h' & H1 & H2 & _).
  - unfold three_queued.
    repeat apply PushTransaction_heapOrdered. apply heapOrdered_nil.
  - intros t Ht.
    replace (prio urgent) with 98%Z by (vm_compute; reflexivity).
    assert (prio t ≤ 45)%Z; [|lia].
    apply list_elem_of_In in Ht. vm_compute in Ht.
    destruct Ht as [<-|[<-|[<-|[]]]]; vm_compute; discriminate.
  - exists next, h'. split; [exact H1|exact H2].
Defined.

(** ** The batch-filling loop *)

Lemma elem_of_payload_prio (t : Transaction) (l l' : list Transaction) :
  payload <$> l' ⊆+ payload <$> l → t ∈ l' → ∃ t0, t0 ∈ l ∧ prio t0 = prio t.
Proof.
  intros Hsub Ht.
  assert (payload t ∈ payload <$> l) as Hin.
  { eapply elem_of_submseteq; [|done]. apply list_elem_of_fmap. eauto. }
  apply list_elem_of_fmap in Hin as (t0 & Heq & Ht0).
  exists t0. split; [done|]. by injection Heq.
Qed.

Lemma NextTransaction_prios h tx h' :
  heapOrdered h → NextTransaction h = Ret (tx, h') →
  (∀ t, t ∈ h → (prio t ≤ prio tx)%Z) ∧
  (∀ t, t ∈ h' → ∃ t0, t0 ∈ h ∧ prio t0 = prio t) ∧
  heapOrdered h'.
Proof.
  intros Hh Hnext.
  assert (h ≠ []) as Hne by (by intros ->).
  destruct (NextTransaction_Ret h Hne) as (tx0 & h0 & Hn0 & Hroot & _ & Hperm & Hh').
  rewrite Hnext in Hn0. injection Hn0 as <- <-.
  split; [|split; [|by apply Hh']].
  - intros t [k Hk]%list_elem_of_lookup.
    pose proof (lookup_lt_Some _ _ _ Hk) as Hlt.
    rewrite <-(list_lookup_total_correct _ _ _ Hk). subst tx. cbn.
    by apply heapOrdered_root.
  - intros t Ht. apply (elem_of_payload_prio t h h'); [|done].
    rewrite Hperm. by apply submseteq_cons.
Qed.

Section loop_facts.
Context {order : RangeOrder}.

Lemma fill_step_priority_order vdb st st' :
  pending st ≠ [] → fill_step vdb st = Ret st' →
  priority_order st → priority_order st'.
Proof.
  intros Hne Hstep (Hdesc & Hlow & Hh).
  destruct (NextTransaction_some _ Hne) as (tx & h' & Hnext & _).
  destruct (NextTransaction_prios _ _ _ Hh Hnext) as (Hmax & Hfrom & Hh').
  assert (∀ a p, a ∈ batch st → p ∈ h' → (prio p ≤ prio a)%Z) as Hlow'.
  { intros a p Ha Hp. destruct (Hfrom p Hp) as (p0 & Hp0 & <-). by apply Hlow. }
  pose proof (fill_step_how vdb st tx h' Hnext) as Hs. rewrite Hstep in Hs.
  inversion Hs as [Hna E|msg Haff Hic E|err Haff Hic E|Haff Hic Hlen E
                   |Haff Hic Hfull E|db' Haff Hic E]; subst; try done.
  assert (∃ t0, t0 ∈ pending st ∧ prio t0 = prio tx) as (t0 & Ht0 & Hpt).
  { destruct (NextTransaction_Ret _ Hne) as (tx1 & h1 & Hn1 & Hroot & _).
    rewrite Hnext in Hn1. injection Hn1 as <- <-.
    exists (pending st !!! 0). split; [|by subst tx].
    apply list_elem_of_lookup_total_2. destruct (pending st); [done|cbn; lia]. }
  split; [|split; [|done]]; cbn.
  - intros i j a b Hij Ha Hb.
    destruct (decide (j < length (batch st))) as [Hj|Hj].
    + rewrite lookup_app_l in Ha, Hb by lia. exact (Hdesc i j a b Hij Ha Hb).
    + rewrite lookup_app_r in Hb by lia.
      destruct (j - length (batch st)) as [|d] eqn:Hd; [|by destruct d].
      injection Hb as <-.
      assert (i < length (batch st)) as Hi.
      { apply lookup_lt_Some in Ha. rewrite length_app in Ha. cbn in Ha. lia. }
      rewrite lookup_app_l in Ha by done.
      rewrite <-Hpt. apply Hlow; [|done]. by eapply list_elem_of_lookup_2.
  - intros a p [Ha|Ha%list_elem_of_singleton]%elem_of_app Hp.
    + by apply Hlow'.
    + subst a. destruct (Hfrom p Hp) as (p0 & Hp0 & <-). by apply Hmax.
Qed.

Lemma fill_batch_priority_order fuel vdb st st' :
  fill_batch fuel vdb st = Ret st' → priority_order st → priority_order st'.
Proof.
  revert st. induction fuel as [|fuel IH]; intros st; cbn [fill_batch].
  - destruct (_ && _); [done|]. by intros [= ->].
  - destruct (_ <? 100); cbn [andb]; [|by intros [= ->]].
    destruct (0 <? length (pending st)) eqn:Hq; [|by intros [= ->]].
    destruct (fill_step vdb st) as [st1| | |] eqn:Hstep; [|done..].
    cbn. intros Hrest Hinv. apply (IH _ Hrest).
    eapply fill_step_priority_order; [|done..]. by apply filling_nonempty.
Qed.


(** Nothing is invented or doubled by a turn of the loop. *)
Lemma fill_step_conserves vdb st st' :
  pending st ≠ [] → fill_step vdb st = Ret st' →
  payload <$> (batch st' ++ chan st' ++ pending st')
    ⊆+ payload <$> (batch st ++ chan st ++ pending st) ∧
  chan st `prefix_of` chan st'.
Proof.
  intros Hne Hstep.
  destruct (NextTransaction_Ret _ Hne) as (tx & h' & Hnext & _ & _ & Hperm & _).
  pose proof (fill_step_how vdb st tx h' Hnext) as Hs. rewrite Hstep in Hs.
  rewrite !fmap_app, Hperm.
  inversion Hs as [Hna E|msg Haff Hic E|err Haff Hic E|Haff Hic Hlen E
                   |Haff Hic Hfull E|db' Haff Hic E]; subst; cbn;
    rewrite ?fmap_app; cbn; (split; [|try done; by apply prefix_app_r]).
  - apply submseteq_app; [done|]. apply submseteq_app; [done|].
    by apply submseteq_cons.
  - apply submseteq_app; [done|]. apply submseteq_app; [done|].
    by apply submseteq_cons.
  - apply Permutation_submseteq. solve_Permutation.
  - apply Permutation_submseteq. solve_Permutation.
Qed.

Lemma fill_batch_conserves fuel vdb st st' :
  fill_batch fuel vdb st = Ret st' →
  payload <$> (batch st' ++ chan st' ++ pending st')
    ⊆+ payload <$> (batch st ++ chan st ++ pending st) ∧
  chan st `prefix_of` chan st'.
Proof.
  revert st. induction fuel as [|fuel IH]; intros st; cbn [fill_batch].
  - destruct (_ && _); [done|]. by intros [= ->].
  - destruct (_ <? 100); cbn [andb]; [|by intros [= ->]].
    destruct (0 <? length (pending st)) eqn:Hq; [|by intros [= ->]].
    destruct (fill_step vdb st) as [st1| | |] eqn:Hstep; [|done..].
    cbn. intros Hrest. destruct (IH _ Hrest) as [H1 H2].
    destruct (fill_step_conserves vdb st st1) as [H3 H4];
      [by apply filling_nonempty|done|].
    split; by etrans.
Qed.

(** X13. A pass invents no transaction and doubles none: the batch, the
    channel and the queue it ends with hold, between them, only
    transactions that were in the channel or queued, each as often at most;
    so no transaction is both admitted and sent back, or admitted twice.
    What was in the channel stays at its head. *)
Theorem pass_conserves_transactions vali st :
  build_batch vali = Ret st →
  payload <$> (batch st ++ chan st ++ pending st)
    ⊆+ payload <$> (txCh vali ++ txHeap vali) ∧
  txCh vali `prefix_of` chan st.
Proof. intros Hb. apply (fill_batch_conserves _ _ _ _ Hb). Qed.


End loop_facts.


Lemma pass_conserves_transactions_witness :
  ∃ st, build_batch (order := listed_order)
          (validator_of ledger [overspend; pay_bob]) = Ret st ∧
        payload <$> (batch st ++ chan st ++ pending st)
          ⊆+ payload <$> queue [overspend; pay_bob].
Proof.
  destruct (build_batch (order := listed_order)
              (validator_of ledger [overspend; pay_bob])) as [st| | |] eqn:E;
    [|exfalso; vm_compute in E; discriminate E..].
  exists st. split; [reflexivity|].
  exact (proj1 (pass_conserves_transactions (order := listed_order) _ _ E)).
Defined.

(** ** CommitBatch *)

Lemma change_then_commit vdb changes sum instr r (db : gmap string Z) :
  change_of_instruction vdb changes sum instr = Ret r →
  dom vdb ⊆ dom db →
  ∃ db', commit_instruction db instr = Ret db' ∧ dom db ⊆ dom db'.
Proof.
  unfold change_of_instruction, commit_instruction, GetBalance.
  intros Hch Hdom.
  destruct (Change instr) as [change|change|]; [| |done].
  { destruct (db !! Account instr); eexists; (split; [done|]);
      rewrite dom_insert; set_solver. }
  destruct (change !! "account"%string) as [[account|]|]; [|done..].
  destruct (vdb !! account) as [target|] eqn:Hv; [|done].
  assert (is_Some (db !! account)) as [target' Ht].
  { apply elem_of_dom, Hdom, elem_of_dom. eauto. }
  rewrite Ht.
  destruct (change !! "sign"%string) as [[sign|]|]; [|done..].
  destruct (db !! Account instr);
    destruct (String.eqb sign "plus"); [| |
    |destruct (String.eqb sign "minus"); [|done]];
    try (destruct (String.eqb sign "minus"); [|done]);
    eexists; (split; [done|]); rewrite dom_insert; set_solver.
Qed.

Lemma changes_then_commit vdb changes sum instrs r (db : gmap string Z) :
  changes_of_instructions vdb changes sum instrs = Ret r →
  dom vdb ⊆ dom db →
  ∃ db', commit_instructions db instrs = Ret db' ∧ dom db ⊆ dom db'.
Proof.
  revert changes sum db.
  induction instrs as [|instr instrs IH]; intros changes sum db Hch Hdom.
  { exists db. by split. }
  cbn [changes_of_instructions] in Hch. cbn [commit_instructions].
  destruct (change_of_instruction vdb changes sum instr)
    as [[changes1 sum1]| | |] eqn:H1; [|done..].
  cbn in Hch.
  destruct (change_then_commit _ _ _ _ _ db H1 Hdom) as (db1 & -> & Hd1).
  cbn. destruct (IH _ _ db1 Hch) as (db' & -> & Hd'); [set_solver|].
  exists db'. split; [done|]. set_solver.
Qed.

Lemma dom_Earn (db : gmap string Z) amount :
  dom (Earn db amount) = {[ "validator"%string ]} ∪ dom db.
Proof.
  unfold Earn. destruct (GetBalance db "validator"). by rewrite dom_insert_L.
Qed.

Section commit_runs.
Context {order : RangeOrder}.

Lemma admitted_then_commit vdb tx w commutative err w' (db : gmap string Z) :
  isCommutative vdb tx w = Ret (commutative, err, w') →
  dom vdb ⊆ dom db →
  ∃ db', commit_transaction db tx = Ret db' ∧ dom db ⊆ dom db'.
Proof.
  intros Hic Hdom.
  pose proof (isCommutative_how vdb tx w) as Hc. rewrite Hic in Hc.
  assert (∃ r, changes_of_instructions vdb (fee_change tx) 0%Z (Instrs tx)
               = Ret r) as [r Hr]
    by (inversion Hc; eauto).
  unfold commit_transaction.
  destruct (GetBalance db (Payer (Fee tx))) as [b e].
  destruct (changes_then_commit _ _ _ _ _
              (<[Payer (Fee tx) := (b - Amount (Fee tx))%Z]>
                 (Earn db (Amount (Fee tx)))) Hr) as (db' & -> & Hd').
  { rewrite dom_insert, dom_Earn. set_solver. }
  exists db'. split; [done|]. rewrite dom_insert, dom_Earn in Hd'. set_solver.
Qed.

Lemma fill_batch_commit_runs fuel vdb st st' :
  fill_batch fuel vdb st = Ret st' →
  (∃ db', commit_transactions vdb (batch st) = Ret db' ∧ dom vdb ⊆ dom db') →
  ∃ db', commit_transactions vdb (batch st') = Ret db' ∧ dom vdb ⊆ dom db'.
Proof.
  revert st. induction fuel as [|fuel IH]; intros st; cbn [fill_batch].
  - destruct (_ && _); [done|]. by intros [= ->].
  - destruct (_ <? 100); cbn [andb]; [|by intros [= ->]].
    destruct (0 <? length (pending st)) eqn:Hq; [|by intros [= ->]].
    destruct (NextTransaction_some _ (filling_nonempty _ Hq))
      as (tx & h' & Hnext & _).
    pose proof (fill_step_how vdb st tx h' Hnext) as Hs.
    destruct (fill_step vdb st) as [st1| | |] eqn:Hstep; [|done..].
    cbn. intros Hrest Hinv. apply (IH _ Hrest).
    inversion Hs as [Hna E|msg Haff Hic E|err Haff Hic E|Haff Hic Hlen E
                     |Haff Hic Hfull E|db1 Haff Hic E]; subst; cbn; try done.
    destruct Hinv as (db0 & Hc0 & Hd0).
    destruct (admitted_then_commit _ _ _ _ _ _ db0 Hic Hd0) as (db2 & Hc2 & Hd2).
    exists db2. split; [|set_solver].
    rewrite commit_transactions_app, Hc0. cbn. by rewrite Hc2.
Qed.

(** X15. [CommitBatch] does not panic on a batch the filling loop built:
    every descriptor it meets was read without panic during the
    simulation, and no account is ever removed from the ledger.  So a pass
    whose filling loop ends normally ends normally, the ledger has every
    account it had, and the batch counter moves only with a commit. *)
Theorem commit_of_built_batch_runs vali st :
  build_batch vali = Ret st →
  ∃ vali' sent,
    ProcessTransactions_default vali = Ret (vali', sent) ∧
    dom (db vali) ⊆ dom (db vali') ∧
    batchIdx vali' =
      (if sent is Some _ then (batchIdx vali + 1) mod 2 ^ 64 else batchIdx vali)%Z.
Proof.
  intros Hb.
  destruct (fill_batch_commit_runs _ _ _ _ Hb) as (db' & Hc & Hd).
  { exists (db vali). by split. }
  unfold ProcessTransactions_default.
  destruct (length (txHeap vali) =? 0); [by eexists _, _|].
  rewrite Hb. cbn.
  destruct (length (batch st) =? 0); [by eexists _, _|].
  unfold CommitBatch. cbn [db after_build]. rewrite Hc. cbn.
  by eexists _, _.
Qed.

End commit_runs.

Lemma commit_of_built_batch_runs_witness :
  ∃ vali',
    ProcessTransactions_default (order := listed_order)
      (validator_of ledger_with_dave [mirror_bob; credit_bob])
      = Ret (vali', Some [set_index credit_bob (-1); set_index mirror_bob (-1)]) ∧
    batchIdx vali' = 1%Z.
Proof.
  destruct (build_batch (order := listed_order)
              (validator_of ledger_with_dave [mirror_bob; credit_bob]))
    as [st| | |] eqn:E; [|exfalso; vm_compute in E; discriminate E..].
  destruct (commit_of_built_batch_runs (order := listed_order) _ _ E)
    as (vali' & sent & Hpass & _ & Hidx).
  exists vali'.
  assert (sent = Some [set_index credit_bob (-1); set_index mirror_bob (-1)])
    as ->.
  { vm_compute in Hpass. by injection Hpass as _ <-. }
  split; [exact Hpass|exact Hidx].
Defined.

Lemma dom_commit_absolute (db : gmap string Z) instrs db' :
  Forall (λ instr, IsChangeFloat64 instr = true) instrs →
  commit_instructions db instrs = Ret db' →
  dom db' = dom db ∪ list_to_set (Account <$> instrs).
Proof.
  intros Hall. revert db.
  induction Hall as [|instr instrs Hf _ IH]; intros db.
  { intros [= <-]. cbn. set_solver. }
  cbn [commit_instructions]. unfold commit_instruction.
  unfold IsChangeFloat64 in Hf.
  destruct (Change instr) as [change| |]; [|done..].
  destruct (GetBalance db (Account instr)). cbn. intros Hc.
  rewrite (IH _ Hc), dom_insert_L. cbn. set_solver.
Qed.

Lemma dom_commit_transactions (db : gmap string Z) batch db' :
  Forall absolute_only batch →
  commit_transactions db batch = Ret db' →
  dom db' = dom db ∪ touched_by batch.
Proof.
  intros Hall. revert db.
  induction Hall as [|tx batch Htx _ IH]; intros db.
  { intros [= <-]. unfold touched_by. cbn. set_solver. }
  cbn [commit_transactions]. unfold commit_transaction at 1.
  destruct (GetBalance db (Payer (Fee tx))).
  destruct (commit_instructions _ (Instrs tx)) as [db1| | |] eqn:H1; [|done..].
  cbn. intros Hc. rewrite (IH _ Hc).
  rewrite (dom_commit_absolute _ _ _ Htx H1), dom_insert_L, dom_Earn.
  unfold touched_by, touched. cbn. set_solver.
Qed.

Lemma touched_by_Permutation b1 b2 : b1 ≡ₚ b2 → touched_by b1 = touched_by b2.
Proof.
  intros Hperm. unfold touched_by. apply set_eq. intros a.
  rewrite !elem_of_union_list. by setoid_rewrite Hperm.
Qed.

Lemma lookup_balance (db : gmap string Z) a :
  db !! a = if decide (a ∈ dom db) then Some (balance db a) else None.
Proof.
  unfold balance, GetBalance. case_decide as Hin.
  - apply elem_of_dom in Hin as [b ->]. done.
  - by apply not_elem_of_dom in Hin as ->.
Qed.





(** ** isCommutative and the working snapshot *)

Lemma dom_apply_changes (db : gmap string Z) entries :
  (∀ a c, (a, c) ∈ entries → a ∈ dom db) →
  dom (apply_changes db entries) = dom db.
Proof.
  revert db. induction entries as [|[account change] entries IH]; intros db Hin.
  { done. }
  cbn [apply_changes]. destruct (GetBalance db account) as [b e].
  assert (account ∈ dom db) as Ha by (apply (Hin account change); left).
  rewrite IH.
  - rewrite dom_insert_L. set_solver.
  - intros a c Hac. rewrite dom_insert_L.
    apply elem_of_union_r, (Hin a c). by right.
Qed.

Section snapshot_facts.
Context {order : RangeOrder}.

Lemma kept_entries_are_known (db changes changes' : gmap string Z) a c :
  test_changes db (range changes) changes = inr changes' →
  changes' !! a = Some c → a ∈ dom db.
Proof.
  intros [_ Hpruned]%test_changes_inr Hac.
  rewrite Hpruned in Hac. case_bool_decide as Hm; [done|].
  apply elem_of_dom. destruct (db !! a) eqn:Hdb; [done|].
  exfalso. apply Hm. split; [|done].
  apply list_elem_of_fmap. exists (a, c). split; [done|].
  by apply elem_of_range.
Qed.

(** X18. Whatever it returns, [isCommutative] leaves the copy with the
    accounts it had, no more and no fewer: an account the copy does not
    have is not created, even by a positive change.  And no balance of the
    copy that was not negative is made negative. *)
Theorem isCommutative_keeps_accounts vdb tx (db : gmap string Z)
    commutative err db' :
  isCommutative vdb tx db = Ret (commutative, err, db') →
  dom db' = dom db ∧
  ∀ a, (0 ≤ balance db a)%Z → (0 ≤ balance db' a)%Z.
Proof.
  intros Hic.
  pose proof (isCommutative_how vdb tx db) as Hc. rewrite Hic in Hc.
  inversion Hc as [| | | |changes changes' Hch Hnm Hno Ht E]; subst; try done.
  split.
  - apply dom_apply_changes. intros a c Hac%elem_of_range.
    by eapply kept_entries_are_known.
  - intros a. by apply (admitted_nonnegative vdb tx db).
Qed.


(** X20. A transaction whose payer has no account in the working
    snapshot, or not enough to cover the fee, is dropped: it is neither
    admitted nor sent back to the channel, and the snapshot is unchanged. *)
Theorem unaffordable_is_dropped vdb st tx txHeap' :
  NextTransaction (pending st) = Ret (tx, txHeap') →
  ¬ affordable (working st) tx →
  fill_step vdb st = Ret (dropped st txHeap').
Proof.
  intros Hnext Hna.
  pose proof (fill_step_how vdb st tx txHeap' Hnext) as Hs.
  inversion Hs; done.
Qed.

(** X21. A transaction that can pay its fee but whose instructions do not
    sum to zero is neither admitted nor sent back to the channel.  The
    validator account of the working snapshot is credited the fee; the
    payer is not debited, and no instruction is applied. *)
Theorem unbalanced_is_forfeited vdb st tx txHeap' changes sum :
  NextTransaction (pending st) = Ret (tx, txHeap') →
  affordable (working st) tx →
  changes_of_instructions vdb (fee_change tx) 0%Z (Instrs tx)
    = Ret (changes, sum) →
  sum ≠ 0%Z →
  fill_step vdb st = Ret (forfeited st tx txHeap') ∧
  ∀ a, a ≠ "validator"%string →
       working (forfeited st tx txHeap') !! a = working st !! a.
Proof.
  intros Hnext Haff Hch Hsum.
  split.
  2: { intros a Ha. cbn. unfold Earn.
       destruct (GetBalance (working st) "validator").
       by rewrite lookup_insert_ne. }
  pose proof (fill_step_how vdb st tx txHeap' Hnext) as Hs.
  pose proof (isCommutative_how vdb tx (working st)) as Hc.
  inversion Hs as [Hna E|msg Ha Hic E|err Ha Hic E|Ha Hic Hlen E
                   |Ha Hic Hfull E|db' Ha Hic E]; try done;
    rewrite Hic in Hc; inversion Hc; congruence.
Qed.

(** X22. The channel holds 256 transactions.  When it is full, a
    transaction that is to be sent back (it would take a balance below
    zero, and debits no missing account) stops the loop for good: the send
    waits for a receive that only this loop could make. *)
Theorem full_channel_blocks vdb st tx txHeap' changes :
  NextTransaction (pending st) = Ret (tx, txHeap') →
  affordable (working st) tx →
  changes_of_instructions vdb (fee_change tx) 0%Z (Instrs tx) = Ret (changes, 0%Z) →
  overdraws (working st) changes →
  ¬ missing_debit (working st) changes →
  256 ≤ length (chan st) →
  fill_step vdb st = Blocked.
Proof.
  intros Hnext Haff Hch Hover Hnm Hfull.
  pose proof (fill_step_how vdb st tx txHeap' Hnext) as Hs.
  pose proof (isCommutative_how vdb tx (working st)) as Hc.
  inversion Hs as [Hna E|msg Ha Hic E|err Ha Hic E|Ha Hic Hlen E
                   |Ha Hic Hfull' E|db' Ha Hic E]; try done; try lia;
    rewrite Hic in Hc.
  - inversion Hc. congruence.
  - inversion Hc as [|c s Hch' Hs' E'|c Hch' Hm E'| |]; subst.
    + congruence.
    + assert (c = changes) as -> by congruence. done.
  - inversion Hc as [| | | |c c' Hch' Hnm' Hno]; subst.
    assert (c = changes) as -> by congruence. done.
Qed.


End snapshot_facts.

Lemma ledger_balance_nonnegative a : (0 ≤ balance ledger a)%Z.
Proof.
  unfold balance, GetBalance.
  destruct (ledger !! a) as [b|] eqn:Hab; cbn; [|lia].
  by apply (ledger_nonnegative a).
Qed.

Lemma isCommutative_keeps_accounts_witness :
  ∃ db', isCommutative (order := listed_order) ledger pay_bob ledger
           = Ret (true, None, db') ∧
         dom db' = dom ledger.
Proof.
  destruct (isCommutative (order := listed_order) ledger pay_bob ledger)
    as [[[c e] db']| | |] eqn:E; [|exfalso; vm_compute in E; discriminate E..].
  destruct (isCommutative_keeps_accounts (order := listed_order) _ _ _ _ _ _ E)
    as [Hdom _].
  exists db'. split; [|exact Hdom].
  vm_compute in E. injection E as <- <- <-. reflexivity.
Defined.


Lemma unaffordable_is_dropped_witness :
  fill_step (order := listed_order) ledger before_from_ghost
  = Ret (dropped before_from_ghost []).
Proof.
  apply (unaffordable_is_dropped (order := listed_order) ledger
           before_from_ghost (set_index from_ghost (-1)) []).
  - vm_compute. reflexivity.
  - intros (b & Hb & _). vm_compute in Hb. discriminate Hb.
Defined.

Lemma unbalanced_is_forfeited_witness :
  fill_step (order := listed_order) ledger before_unbalanced
  = Ret (forfeited before_unbalanced (set_index unbalanced (-1)) []).
Proof.
  refine (proj1 (unbalanced_is_forfeited (order := listed_order) ledger
                   before_unbalanced (set_index unbalanced (-1)) []
                   {[ "alice"%string := (-7)%Z ]} 5%Z _ _ _ _)).
  - vm_compute. reflexivity.
  - exists 100%Z. split; [vm_compute; reflexivity|vm_compute; discriminate].
  - vm_compute. reflexivity.
  - discriminate.
Defined.

Lemma full_channel_blocks_witness :
  fill_step (order := listed_order) ledger channel_full = Blocked.
Proof.
  apply (full_channel_blocks (order := listed_order) ledger channel_full
           (set_index overspend (-1)) [] {[ "alice"%string := (-95)%Z ]}).
  - vm_compute. reflexivity.
  - exists 80%Z. split; [vm_compute; reflexivity|vm_compute; discriminate].
  - vm_compute. reflexivity.
  - exists "alice"%string, (-95)%Z, 80%Z.
    split; [vm_compute; reflexivity|].
    split; [vm_compute; reflexivity|reflexivity].
  - intros (account & change & Hin & Hdb & _).
    apply lookup_singleton_Some in Hin as [<- _].
    vm_compute in Hdb. discriminate Hdb.
  - vm_compute. lia.
Defined.


(** ** The channel and the queue *)

(** X24. While the channel has transactions, [ProcessTransactions] only
    receives: as many turns as the channel holds transactions move them all
    to the queue, and do nothing else.  The channel is then empty, the
    ledger and the batch counter are untouched, the queue holds what it held
    and what the channel held, and it is in heap shape if it was. *)
Theorem channel_is_drained_first {order : RangeOrder} vali :
  ∃ vali',
    ProcessTransactions_turns (length (txCh vali)) vali = Ret vali' ∧
    txCh vali' = [] ∧ db vali' = db vali ∧ batchIdx vali' = batchIdx vali ∧
    payload <$> txHeap vali' ≡ₚ payload <$> (txCh vali ++ txHeap vali) ∧
    (heapOrdered (txHeap vali) → heapOrdered (txHeap vali')).
Proof.
  destruct vali as [accounts ch idx h]. cbn [txCh db batchIdx txHeap].
  revert h. induction ch as [|tx ch IH]; intros h.
  { eexists. split; [reflexivity|]. by cbn. }
  cbn [length ProcessTransactions_turns].
  unfold ProcessTransactions_turn at 1. cbn [txCh db batchIdx txHeap].
  cbn [mbind outcome_bind].
  destruct (IH (PushTransaction h tx)) as (vali' & -> & H1 & H2 & H3 & H4 & H5).
  exists vali'. split; [done|]. split; [done|]. split; [done|]. split; [done|].
  split.
  - rewrite H4, !fmap_app, PushTransaction_payload. cbn. solve_Permutation.
  - intros Hh. by apply H5, PushTransaction_heapOrdered.
Qed.

(** ** Panics *)

Lemma change_of_instruction_readable vdb changes sum instr :
  (∃ r, change_of_instruction vdb changes sum instr = Ret r)
  ↔ readable vdb instr = true.
Proof.
  unfold change_of_instruction, readable, GetBalance.
  destruct (Change instr) as [change|change|].
  - split; [done|]. intros _. repeat case_match; eauto.
  - destruct (change !! "account"%string) as [[target|]|];
      [|split; [by intros [? ?]|done]..].
    destruct (vdb !! target) as [b|] eqn:Hv.
    2: { split; [by intros [? ?]|].
         destruct (change !! "sign"%string) as [[?|]|]; [|done..].
         rewrite bool_decide_eq_false_2; [done|]. by intros [? ?]. }
    destruct (change !! "sign"%string) as [[sign|]|];
      [|split; [by intros [? ?]|done]..].
    rewrite bool_decide_eq_true_2 by eauto. cbn [andb].
    destruct (String.eqb sign "plus"); cbn [orb]; [split; eauto|].
    destruct (String.eqb sign "minus"); [|split; [by intros [? ?]|done]].
    split; [done|]. intros _. destruct (changes !! Account instr); eauto.
  - split; [by intros [? ?]|done].
Qed.

Lemma changes_of_instructions_readable vdb changes sum instrs :
  (∃ r, changes_of_instructions vdb changes sum instrs = Ret r)
  ↔ Forall (λ instr, readable vdb instr = true) instrs.
Proof.
  revert changes sum.
  induction instrs as [|instr instrs IH]; intros changes sum.
  { split; [done|]. intros _. by eexists. }
  cbn [changes_of_instructions]. rewrite Forall_cons.
  rewrite <-(change_of_instruction_readable vdb changes sum instr).
  destruct (change_of_instruction vdb changes sum instr)
    as [[changes1 sum1]| | |] eqn:H1; cbn.
  - rewrite (IH changes1 sum1). split; [|tauto]. intros H. split; [eauto|done].
  - split; [by intros [? ?]|by intros [[? ?] _]].
  - split; [by intros [? ?]|by intros [[? ?] _]].
  - split; [by intros [? ?]|by intros [[? ?] _]].
Qed.

(** X25. [isCommutative] panics exactly when the transaction has an
    instruction that cannot be read: a change that is neither a number nor
    an object, an object without a string under account or under sign, a
    sign other than plus and minus, or a target that is not an account of
    the ledger.  The fee, the working copy and the order of [range] play no
    part in it, and a transaction whose instructions can all be read gets a
    verdict. *)
Theorem isCommutative_panics_iff {order : RangeOrder} vdb tx db :
  (∃ msg, isCommutative vdb tx db = Panic msg)
  ↔ ¬ Forall (λ instr, readable vdb instr = true) (Instrs tx).
Proof.
  rewrite <-(changes_of_instructions_readable vdb (fee_change tx) 0%Z).
  pose proof (isCommutative_how vdb tx db) as Hc.
  split.
  - intros [msg Hp] [r Hr]. rewrite Hp in Hc. inversion Hc. congruence.
  - intros Hnot.
    destruct (isCommutative vdb tx db) as [r|msg| |] eqn:Hic;
      [|by eexists|inversion Hc..].
    exfalso. apply Hnot. inversion Hc; eauto.
Qed.
